(** * ImageGenerator: size-targeting image generation (src/imageGenerator.js)

    Shallow embedding of [ImageGenerator] from the image-generator
    repository: the dimension estimator [estimateInitialDimensions], the
    adjustment step [adjustDimensions], the tolerance check
    [isWithinTolerance] and the convergence loop
    [generateImageWithTargetSize].

    JS numbers are modelled as real numbers ([R]); where a NaN can arise
    (the estimator's property lookup) a JS number is an [option R] whose
    [None] is NaN.  [Math.round x] is [floor (x + 1/2)].  The Jimp
    drawing/encoding step is a parameter of the model: a function from the
    render arguments to the encoded bytes, or [None] when the module could
    not be loaded ([Jimp = null]). *)

From Stdlib Require Import Reals Lra Lia List String Ascii Bool.
Import ListNotations.
Open Scope R_scope.

(** ** Numbers *)

(** [Math.round]: the nearest integer, ties towards +infinity. *)
Definition Math_round (x : R) : R := IZR (up (x + / 2) - 1).

(** A JS number as produced by the estimator: [Some x] is a number,
    [None] is NaN. *)
Definition JSNumber := option R.

Definition js_div (a b : JSNumber) : JSNumber :=
  match a, b with Some x, Some y => Some (x / y) | _, _ => None end.
Definition js_mul (a b : JSNumber) : JSNumber :=
  match a, b with Some x, Some y => Some (x * y) | _, _ => None end.
Definition js_sqrt (a : JSNumber) : JSNumber := option_map sqrt a.
Definition js_round (a : JSNumber) : JSNumber := option_map Math_round a.
(** [Math.max] and [Math.min] return NaN as soon as one argument is NaN. *)
Definition js_max (a b : JSNumber) : JSNumber :=
  match a, b with Some x, Some y => Some (Rmax x y) | _, _ => None end.
Definition js_min (a b : JSNumber) : JSNumber :=
  match a, b with Some x, Some y => Some (Rmin x y) | _, _ => None end.
(** [a > b] is false as soon as one side is NaN. *)
Definition js_gt (a b : JSNumber) : bool :=
  match a, b with
  | Some x, Some y => if Rlt_dec y x then true else false
  | _, _ => false
  end.

Definition Rgtb (x y : R) : bool := if Rlt_dec y x then true else false.
Definition Rgeb (x y : R) : bool := if Rle_dec y x then true else false.
Definition Rltb (x y : R) : bool := if Rlt_dec x y then true else false.
Definition Rleb (x y : R) : bool := if Rle_dec x y then true else false.

(** ** Strings *)

Definition ascii_toLowerCase (c : ascii) : ascii :=
  let n := nat_of_ascii c in
  if andb (Nat.leb 65 n) (Nat.leb n 90) then ascii_of_nat (n + 32) else c.

(** [String.prototype.toLowerCase] on ASCII text. *)
Fixpoint toLowerCase (s : string) : string :=
  match s with
  | EmptyString => EmptyString
  | String c s' => String (ascii_toLowerCase c) (toLowerCase s')
  end.

(** ** JS values read from an object literal

    [compressionFactors[key]] on an object literal finds the own
    properties first and then the properties every object inherits from
    [Object.prototype] (functions, or the prototype object itself for
    [__proto__]); any other key is [undefined]. *)
Inductive JSValue := JSNum (x : R) | JSUndefined | JSObject.

Definition Object_prototype_keys : list string :=
  ["constructor"; "__defineGetter__"; "__defineSetter__"; "hasOwnProperty";
   "__lookupGetter__"; "__lookupSetter__"; "isPrototypeOf";
   "propertyIsEnumerable"; "toString"; "valueOf"; "__proto__";
   "toLocaleString"]%string.

Definition is_Object_prototype_key (key : string) : bool :=
  existsb (String.eqb key) Object_prototype_keys.

Definition truthy (v : JSValue) : bool :=
  match v with
  | JSNum x => if Req_EM_T x 0 then false else true
  | JSUndefined => false
  | JSObject => true
  end.

(** [a || b] *)
Definition js_or (a b : JSValue) : JSValue := if truthy a then a else b.

(** [Number(v)]: functions and plain objects convert to NaN. *)
Definition ToNumber (v : JSValue) : JSNumber :=
  match v with JSNum x => Some x | _ => None end.

(** ** ImageGenerator *)

Definition maxDimension : R := 32767.

Definition supportedFormats : list string := ["jpg"; "jpeg"; "png"]%string.

(** [isFormatSupported(format)] *)
Definition isFormatSupported (format : string) : bool :=
  existsb (String.eqb (toLowerCase format)) supportedFormats.

Definition is_jpeg (format : string) : bool :=
  String.eqb (toLowerCase format) "jpg" || String.eqb (toLowerCase format) "jpeg".

Definition mbToBytes (mb : R) : R := mb * 1024 * 1024.
Definition bytesToMB (bytes : R) : R := bytes / (1024 * 1024).

(** The object literal [compressionFactors] of the estimator. *)
Definition compressionFactors (key : string) : JSValue :=
  if String.eqb key "jpg" then JSNum (15 / 10)
  else if String.eqb key "jpeg" then JSNum (15 / 10)
  else if String.eqb key "png" then JSNum (12 / 10)
  else if is_Object_prototype_key key then JSObject
  else JSUndefined.

Definition aspectRatio : R := 16 / 9.

(** [estimateInitialDimensions(targetSizeBytes, format)].  The divisions
    never divide by zero for a positive target (the factor is 1.5 or 1.2
    and the width is positive), where R's division and JS's agree. *)
Definition estimateInitialDimensions (targetSizeBytes : R) (format : string)
  : JSNumber * JSNumber :=
  let factor := js_or (compressionFactors (toLowerCase format)) (JSNum (15 / 10)) in
  let estimatedPixels := js_div (Some targetSizeBytes) (ToNumber factor) in
  let width := js_sqrt (js_mul estimatedPixels (Some aspectRatio)) in
  let height := js_div estimatedPixels width in
  let '(width, height) :=
    if js_gt width (Some maxDimension) || js_gt height (Some maxDimension) then
      let '(width, height) :=
        if js_gt width height
        then (Some maxDimension, Some (maxDimension / aspectRatio))
        else (Some (maxDimension * aspectRatio), Some maxDimension) in
      (js_min width (Some maxDimension), js_min height (Some maxDimension))
    else (width, height) in
  (js_max (js_round width) (Some 100), js_max (js_round height) (Some 56)).

(** The factor the specification names for a format (format names
    compared case-insensitively): 1.5 for jpg/jpeg, 1.2 for png, 1.5 for
    any other value. *)
Definition spec_factor (fmt : string) : R :=
  let f := toLowerCase fmt in
  if String.eqb f "jpg" || String.eqb f "jpeg" then 15 / 10
  else if String.eqb f "png" then 12 / 10 else 15 / 10.

(** The estimator as the specification describes it (spec 4.1): the
    factor of [spec_factor]; a 16/9 aspect ratio; if a side exceeds the
    ceiling, both sides rescaled so the larger one equals the ceiling, then
    each clamped; rounded and floored at 100 x 56. *)
Definition estimate_reference (targetSizeBytes : R) (format : string) : R * R :=
  let estimatedPixels := targetSizeBytes / spec_factor format in
  let width := sqrt (estimatedPixels * (16 / 9)) in
  let height := estimatedPixels / width in
  let '(width, height) :=
    if Rgtb width maxDimension || Rgtb height maxDimension then
      let larger := Rmax width height in
      (Rmin (width * (maxDimension / larger)) maxDimension,
       Rmin (height * (maxDimension / larger)) maxDimension)
    else (width, height) in
  (Rmax (Math_round width) 100, Rmax (Math_round height) 56).

(** [adjustDimensions(currentSize, targetSize, currentWidth, currentHeight)] *)
Definition adjustDimensions (currentSize targetSize currentWidth currentHeight : R)
  : R * R :=
  let sizeRatio := targetSize / currentSize in
  let scaleFactor := sqrt sizeRatio in
  let newWidth := Math_round (currentWidth * scaleFactor) in
  let newHeight := Math_round (currentHeight * scaleFactor) in
  (Rmax newWidth 50, Rmax newHeight 50).

(** [isWithinTolerance(actualSize, targetSize, tolerance)] *)
Definition isWithinTolerance (actualSize targetSize tolerance : R) : bool :=
  let difference := Rabs (actualSize - targetSize) in
  let allowedDifference := targetSize * tolerance in
  Rltb difference allowedDifference.

(** The quality table used when the dimensions are clamped (lines 387-397). *)
Definition quality_for_bytesPerPixel (bytesPerPixel : R) : R :=
  if Rgtb bytesPerPixel 2 then 100
  else if Rgtb bytesPerPixel (15 / 10) then 95
  else if Rgtb bytesPerPixel 1 then 90
  else if Rgtb bytesPerPixel (5 / 10) then 80
  else 70.

(** The ceiling check at the top of each iteration (lines 365-399):
    returns the width, height and quality to render with. *)
Definition clampToMaxDimension (format : string) (targetSizeBytes : R)
  (width height quality : R) : R * R * R :=
  if Rgtb width maxDimension || Rgtb height maxDimension then
    let aspectRatio := width / height in
    let '(width, height) :=
      if Rgtb width height
      then (maxDimension, Math_round (maxDimension / aspectRatio))
      else (Math_round (maxDimension * aspectRatio), maxDimension) in
    let width := Rmin width maxDimension in
    let height := Rmin height maxDimension in
    let quality :=
      if is_jpeg format
      then quality_for_bytesPerPixel (targetSizeBytes / (width * height))
      else quality in
    (width, height, quality)
  else (width, height, quality).

(** The condition of line 420: at the ceiling, for a JPEG-family format. *)
Definition quality_regime (format : string) (width height : R) : bool :=
  (Rgeb width maxDimension || Rgeb height maxDimension) && is_jpeg format.

(** The adjustment after a render outside the tolerance (lines 420-441). *)
Definition adjustAfterMiss (format : string) (actualSize targetSizeBytes : R)
  (width height quality : R) : R * R * R :=
  if quality_regime format width height then
    (width, height,
     if Rltb actualSize targetSizeBytes
     then Rmin 100 (quality + 5)
     else Rmax 10 (quality - 5))
  else
    let '(w, h) := adjustDimensions actualSize targetSizeBytes width height in
    (w, h, quality).

(** ** Rendering collaborator and the loop's effects *)

(** Arguments of [generateImageWithText(config)]. *)
Record RenderArgs := {
  r_width : R;
  r_height : R;
  r_format : string;
  r_sizeMB : R;
  r_backgroundColor : string;
  r_textColor : string;
  r_quality : R
}.

Definition Buffer := list Byte.byte.

Inductive Error :=
| InvalidTargetSize      (* "Target size must be greater than 0" *)
| UnsupportedFormat      (* "Unsupported format: ..." *)
| JimpUnavailable        (* "Jimp module is not available ..." *)
| DimensionsNotPositive  (* "Image dimensions must be positive numbers" *)
| DimensionsTooLarge     (* "Image dimensions too large: ..." *)
| EstimateNaN.           (* the estimate is NaN: not reachable after validation *)

(** Computations that may throw and that log every call of
    [generateImageWithText], in call order. *)
Definition M (A : Type) := list RenderArgs -> (Error + A) * list RenderArgs.

Definition ret {A} (a : A) : M A := fun log => (inr a, log).
Definition throw {A} (e : Error) : M A := fun log => (inl e, log).
Definition bind {A B} (m : M A) (k : A -> M B) : M B :=
  fun log =>
    match m log with
    | (inl e, log') => (inl e, log')
    | (inr a, log') => k a log'
    end.
Notation "x <- m ;; k" := (bind m (fun x => k))
  (at level 61, m at next level, right associativity).

Definition record_call (r : RenderArgs) : M unit := fun log => (inr tt, log ++ [r]).

(** [GenerationConfig], with the defaults of the destructuring already
    applied. *)
Record Config := {
  targetSizeMB : R;
  format : string;
  backgroundColor : string;
  textColor : string;
  maxIterations : nat;
  tolerance : R
}.

Record LoopState := {
  width : R;
  height : R;
  quality : R;
  iteration : nat;
  buffer : option Buffer;      (* [undefined] before the first render *)
  actualSize : option R
}.

Inductive Step := Stop (st : LoopState) | Next (st : LoopState).

Record Outcome := {
  o_buffer : option Buffer;
  o_width : R;
  o_height : R;
  o_actualSizeBytes : option R;
  o_actualSizeMB : option R;
  o_targetSizeMB : R;
  o_iterations : nat;
  o_format : string;
  o_quality : option R
}.

(** [getImageSize(buffer)] *)
Definition getImageSize (buf : Buffer) : R := INR (List.length buf).

Section Generator.

(** The loaded Jimp module: drawing the background and the centred label
    and encoding the image, or [None] when [require("jimp")] failed. *)
Variable Jimp : option (RenderArgs -> Buffer).

Definition validateJimpAvailability : M (RenderArgs -> Buffer) :=
  match Jimp with None => throw JimpUnavailable | Some encode => ret encode end.

Definition validateDimensions (w h : R) : M unit :=
  if Rleb w 0 || Rleb h 0 then throw DimensionsNotPositive
  else if Rgtb w maxDimension || Rgtb h maxDimension then throw DimensionsTooLarge
  else ret tt.

(** [generateImageWithText(config)]: the rendering collaborator. *)
Definition generateImageWithText (r : RenderArgs) : M Buffer :=
  _ <- record_call r;;
  encode <- validateJimpAvailability;;
  _ <- validateDimensions (r_width r) (r_height r);;
  if negb (isFormatSupported (r_format r)) then throw UnsupportedFormat
  else ret (encode r).

(** What the loop does once a render of [size] bytes is measured
    (lines 414-443); [st] holds the rendered state. *)
Definition afterRender (c : Config) (targetSizeBytes : R) (st : LoopState)
  (size : R) : Step :=
  if isWithinTolerance size targetSizeBytes (tolerance c) then Stop st
  else
    let '(w, h, q) :=
      adjustAfterMiss (format c) size targetSizeBytes
        (width st) (height st) (quality st) in
    Next {| width := w; height := h; quality := q;
            iteration := S (iteration st);
            buffer := buffer st; actualSize := actualSize st |}.

(** The arguments the loop passes to [generateImageWithText] (lines 402-410). *)
Definition renderArgs (c : Config) (w h q : R) : RenderArgs :=
  {| r_width := w; r_height := h; r_format := format c;
     r_sizeMB := targetSizeMB c;
     r_backgroundColor := backgroundColor c;
     r_textColor := textColor c; r_quality := q |}.

(** One pass of the [while] body (lines 364-443). *)
Definition iterationBody (c : Config) (targetSizeBytes : R) (st : LoopState)
  : M Step :=
  let '(w, h, q) :=
    clampToMaxDimension (format c) targetSizeBytes (width st) (height st) (quality st) in
  buf <- generateImageWithText (renderArgs c w h q);;
  let a := getImageSize buf in
  ret (afterRender c targetSizeBytes
         {| width := w; height := h; quality := q; iteration := iteration st;
            buffer := Some buf; actualSize := Some a |} a).

(** [while (iteration < maxIterations)]: [fuel] is
    [maxIterations - iteration]. *)
Fixpoint loop (c : Config) (targetSizeBytes : R) (fuel : nat) (st : LoopState)
  : M LoopState :=
  match fuel with
  | O => ret st
  | S fuel' =>
      s <- iterationBody c targetSizeBytes st;;
      match s with
      | Stop st' => ret st'
      | Next st' => loop c targetSizeBytes fuel' st'
      end
  end.

Definition initialState (w h : R) : LoopState :=
  {| width := w; height := h; quality := 90; iteration := 0;
     buffer := None; actualSize := None |}.

(** [generateImageWithTargetSize(config)].  The warning printed on
    exhaustion is an I/O side effect and is not modelled. *)
Definition generateImageWithTargetSize (c : Config) : M Outcome :=
  if Rleb (targetSizeMB c) 0 then throw InvalidTargetSize
  else if negb (isFormatSupported (format c)) then throw UnsupportedFormat
  else
    let targetSizeBytes := mbToBytes (targetSizeMB c) in
    match estimateInitialDimensions targetSizeBytes (format c) with
    | (Some w, Some h) =>
        st <- loop c targetSizeBytes (maxIterations c) (initialState w h);;
        ret {| o_buffer := buffer st;
               o_width := width st;
               o_height := height st;
               o_actualSizeBytes := actualSize st;
               o_actualSizeMB := option_map bytesToMB (actualSize st);
               o_targetSizeMB := targetSizeMB c;
               o_iterations := S (iteration st);
               o_format := format c;
               o_quality := if is_jpeg (format c) then Some (quality st) else None |}
    | _ => throw EstimateNaN
    end.

End Generator.

(** ** The drawing and encoding step of [generateImageWithText]

    Lines 162-196, run once the checks of lines 152-160 have passed: parse
    the background colour, create the image, print the centred label and
    encode.  The Jimp module is a record of its operations; [loadFont] and
    [getBufferAsync] are awaited, so they appear as plain functions.
    [Number.prototype.toString], used by the template literal of
    [generateDisplayText], is a parameter. *)

(** [parseInt(s, 16)] (ECMAScript 19.2.5) on strings whose code units are
    below 256: skip leading white space, read an optional sign, drop a
    "0x"/"0X" prefix, then read the longest run of hexadecimal digits; no
    digit gives NaN.  ([-0] and [+0] are both [0] here; the value is exact
    for the short digit runs used below.) *)
Definition is_js_whitespace (c : ascii) : bool :=
  let n := nat_of_ascii c in
  (Nat.eqb n 9 || Nat.eqb n 10 || Nat.eqb n 11 || Nat.eqb n 12 || Nat.eqb n 13
   || Nat.eqb n 32 || Nat.eqb n 160)%bool.

Fixpoint trimStart (s : string) : string :=
  match s with
  | String c s' => if is_js_whitespace c then trimStart s' else s
  | EmptyString => EmptyString
  end.

Definition hexDigitValue (c : ascii) : option nat :=
  let n := nat_of_ascii c in
  if (Nat.leb 48 n && Nat.leb n 57)%bool then Some (n - 48)%nat
  else if (Nat.leb 97 n && Nat.leb n 102)%bool then Some (n - 87)%nat
  else if (Nat.leb 65 n && Nat.leb n 70)%bool then Some (n - 55)%nat
  else None.

Fixpoint hexDigitsPrefix (s : string) : list nat :=
  match s with
  | String c s' =>
      match hexDigitValue c with
      | Some d => d :: hexDigitsPrefix s'
      | None => []
      end
  | EmptyString => []
  end.

Definition digitsValue (ds : list nat) : nat :=
  fold_left (fun acc d => acc * 16 + d)%nat ds 0%nat.

(** Steps 5-7: the sign ([true] for a leading minus) and the rest. *)
Definition stripSign (s : string) : bool * string :=
  match s with
  | String c s' =>
      if Ascii.eqb c "-"%char then (true, s')
      else if Ascii.eqb c "+"%char then (false, s')
      else (false, s)
  | EmptyString => (false, s)
  end.

(** Step 12, radix 16. *)
Definition stripHexPrefix (s : string) : string :=
  match s with
  | String c0 (String c1 s') =>
      if (Ascii.eqb c0 "0"%char && (Ascii.eqb c1 "x"%char || Ascii.eqb c1 "X"%char))%bool
      then s' else s
  | _ => s
  end.

Definition parseInt16 (s : string) : JSNumber :=
  let '(negative, s) := stripSign (trimStart s) in
  match hexDigitsPrefix (stripHexPrefix s) with
  | [] => None
  | ds => Some ((if negative then -1 else 1) * INR (digitsValue ds))
  end.

(** Jimp's font constants used by [calculateFontSize]. *)
Inductive FontType :=
| FONT_SANS_16_BLACK | FONT_SANS_32_BLACK | FONT_SANS_64_BLACK | FONT_SANS_128_BLACK.

(** A value read from the object literal [formatMap] of [getMimeType]:
    one of Jimp's MIME constants, or a member inherited from
    [Object.prototype] (all truthy). *)
Inductive MimeValue := MIME_JPEG | MIME_PNG | InheritedMember (key : string).

Definition formatMap (key : string) : option MimeValue :=
  if String.eqb key "jpg" then Some MIME_JPEG
  else if String.eqb key "jpeg" then Some MIME_JPEG
  else if String.eqb key "png" then Some MIME_PNG
  else if is_Object_prototype_key key then Some (InheritedMember key)
  else None.

(** [getMimeType(format)]: [formatMap[format.toLowerCase()] || Jimp.MIME_JPEG]. *)
Definition getMimeType (format : string) : MimeValue :=
  match formatMap (toLowerCase format) with
  | Some m => m
  | None => MIME_JPEG
  end.

(** [calculateFontSize(width, height, text)]; [text] is not used. *)
Definition calculateFontSize (width height : R) (text : string) : FontType :=
  let minDimension := Rmin width height in
  if Rltb minDimension 200 then FONT_SANS_16_BLACK
  else if Rltb minDimension 500 then FONT_SANS_32_BLACK
  else if Rltb minDimension 1000 then FONT_SANS_64_BLACK
  else FONT_SANS_128_BLACK.

(** The loaded Jimp module, as far as [generateImageWithText] uses it. *)
Record JimpModule := {
  Color : Type;
  Image : Type;
  Font : Type;
  rgbaToInt : JSNumber -> JSNumber -> JSNumber -> JSNumber -> Color;
  newJimp : R -> R -> Color -> Image;                  (* new Jimp(w, h, color) *)
  loadFont : FontType -> Font;
  measureText : Font -> string -> R;
  measureTextHeight : Font -> string -> R -> R;
  print : Image -> Font -> R -> R -> string -> Image;  (* image.print(...) *)
  setQuality : R -> Image -> Image;                    (* image.quality(q) *)
  getBufferAsync : Image -> MimeValue -> Buffer
}.

Section Drawing.

Variable jimp : JimpModule.
Variable numberToString : R -> string.

Definition white : Color jimp :=
  rgbaToInt jimp (Some 255) (Some 255) (Some 255) (Some 255).

(** [parseColor(colorStr)] *)
Definition parseColor (colorStr : string) : Color jimp :=
  match colorStr with
  | String c hex =>
      if Ascii.eqb c "#"%char then
        if Nat.eqb (String.length hex) 6 then
          let r := parseInt16 (substring 0 2 hex) in
          let g := parseInt16 (substring 2 2 hex) in
          let b := parseInt16 (substring 4 2 hex) in
          rgbaToInt jimp r g b (Some 255)
        else white
      else white
  | EmptyString => white
  end.

(** The code unit U+00D7 of the label. *)
Definition multiplicationSign : ascii := ascii_of_nat 215.

(** [generateDisplayText(sizeMB, width, height)] *)
Definition generateDisplayText (sizeMB width height : R) : string :=
  numberToString sizeMB ++ "MB " ++ numberToString width ++ " "
  ++ String multiplicationSign " " ++ numberToString height.

(** Lines 162-196 of [generateImageWithText(config)]. *)
Definition renderWithJimp (config : RenderArgs) : Buffer :=
  let width := r_width config in
  let height := r_height config in
  let format := r_format config in
  let bgColor := parseColor (r_backgroundColor config) in
  let image := newJimp jimp width height bgColor in
  let displayText := generateDisplayText (r_sizeMB config) width height in
  let fontType := calculateFontSize width height displayText in
  let font := loadFont jimp fontType in
  let textWidth := measureText jimp font displayText in
  let textHeight := measureTextHeight jimp font displayText textWidth in
  let x := (width - textWidth) / 2 in
  let y := (height - textHeight) / 2 in
  let image := print jimp image font x y displayText in
  let mimeType := getMimeType format in
  if String.eqb (toLowerCase format) "png"
  then getBufferAsync jimp image mimeType
  else getBufferAsync jimp (setQuality jimp (r_quality config) image) mimeType.

End Drawing.

(** With the module loaded, the [Jimp] parameter of the loop is
    [Some (renderWithJimp jimp numberToString)]. *)

(** ** Facts about [Math.round] and the comparisons *)

Lemma Math_round_spec (x : R) : x - / 2 < Math_round x <= x + / 2.
Proof.
  unfold Math_round. rewrite minus_IZR.
  destruct (archimed (x + / 2)) as [H1 H2]. simpl. lra.
Qed.

Lemma Math_round_ge (x : R) (n : Z) : IZR n - / 2 <= x -> IZR n <= Math_round x.
Proof.
  intros Hx. unfold Math_round.
  destruct (archimed (x + / 2)) as [H1 _].
  assert (Hlt : IZR n < IZR (up (x + / 2))) by lra.
  apply lt_IZR in Hlt. apply IZR_le. lia.
Qed.

Lemma Math_round_le (x : R) (n : Z) : x < IZR n + / 2 -> Math_round x <= IZR n.
Proof.
  intros Hx. unfold Math_round.
  destruct (archimed (x + / 2)) as [_ H2].
  assert (Hlt : IZR (up (x + / 2)) < IZR (n + 2)) by (rewrite plus_IZR; simpl; lra).
  apply lt_IZR in Hlt. apply IZR_le. lia.
Qed.

Lemma Math_round_IZR (n : Z) : Math_round (IZR n) = IZR n.
Proof.
  apply Rle_antisym.
  - apply Math_round_le. lra.
  - apply Math_round_ge. lra.
Qed.

Lemma Math_round_mono (x y : R) : x <= y -> Math_round x <= Math_round y.
Proof.
  intros Hxy. unfold Math_round at 2.
  apply Math_round_le.
  pose proof (Math_round_spec y) as Hy. unfold Math_round in Hy. lra.
Qed.

Lemma Rltb_true (x y : R) : Rltb x y = true <-> x < y.
Proof. unfold Rltb. destruct (Rlt_dec x y); split; intros; try lra; congruence. Qed.

Lemma Rltb_false (x y : R) : Rltb x y = false <-> y <= x.
Proof. unfold Rltb. destruct (Rlt_dec x y); split; intros; try lra; congruence. Qed.

Lemma Rgtb_true (x y : R) : Rgtb x y = true <-> y < x.
Proof. unfold Rgtb. destruct (Rlt_dec y x); split; intros; try lra; congruence. Qed.

Lemma Rgtb_false (x y : R) : Rgtb x y = false <-> x <= y.
Proof. unfold Rgtb. destruct (Rlt_dec y x); split; intros; try lra; congruence. Qed.

Lemma Rgeb_true (x y : R) : Rgeb x y = true <-> y <= x.
Proof. unfold Rgeb. destruct (Rle_dec y x); split; intros; try lra; congruence. Qed.

Lemma Rgeb_false (x y : R) : Rgeb x y = false <-> x < y.
Proof. unfold Rgeb. destruct (Rle_dec y x); split; intros; try lra; congruence. Qed.

Lemma Rleb_true (x y : R) : Rleb x y = true <-> x <= y.
Proof. unfold Rleb. destruct (Rle_dec x y); split; intros; try lra; congruence. Qed.

Lemma Rleb_false (x y : R) : Rleb x y = false <-> y < x.
Proof. unfold Rleb. destruct (Rle_dec x y); split; intros; try lra; congruence. Qed.

(** Rewrites a comparison to its truth value, proving the side condition
    with [lra]. *)
Ltac rcmp :=
  repeat match goal with
  | |- context [Rltb ?x ?y] =>
      first [ rewrite (proj2 (Rltb_true x y)) by lra
            | rewrite (proj2 (Rltb_false x y)) by lra ]
  | |- context [Rgtb ?x ?y] =>
      first [ rewrite (proj2 (Rgtb_true x y)) by lra
            | rewrite (proj2 (Rgtb_false x y)) by lra ]
  | |- context [Rgeb ?x ?y] =>
      first [ rewrite (proj2 (Rgeb_true x y)) by lra
            | rewrite (proj2 (Rgeb_false x y)) by lra ]
  | |- context [Rleb ?x ?y] =>
      first [ rewrite (proj2 (Rleb_true x y)) by lra
            | rewrite (proj2 (Rleb_false x y)) by lra ]
  end.

Lemma is_jpeg_png : is_jpeg "png" = false.
Proof. reflexivity. Qed.

Lemma is_jpeg_jpg : is_jpeg "jpg" = true.
Proof. reflexivity. Qed.

(** ** Claims about a single iteration *)

(** C1: in the dimension regime, after a render outside the tolerance, the
    next dimensions are [round(width * sqrt(target / actual))] and
    [round(height * sqrt(target / actual))], each floored at 50; the
    quality is unchanged. *)
Theorem afterRender_area_scaling (c : Config) (t : R) (st : LoopState) (a : R) :
  0 < a -> 0 < t ->
  isWithinTolerance a t (tolerance c) = false ->
  quality_regime (format c) (width st) (height st) = false ->
  afterRender c t st a =
  Next {| width := Rmax (Math_round (width st * sqrt (t / a))) 50;
          height := Rmax (Math_round (height st * sqrt (t / a))) 50;
          quality := quality st;
          iteration := S (iteration st);
          buffer := buffer st;
          actualSize := actualSize st |}.
Proof.
  intros _ _ Htol Hreg.
  unfold afterRender. rewrite Htol.
  unfold adjustAfterMiss. rewrite Hreg. reflexivity.
Qed.

Definition sample_config : Config :=
  {| targetSizeMB := 1; format := "png"; backgroundColor := "#ffffff";
     textColor := "#000000"; maxIterations := 20; tolerance := 5 / 100 |}.

Definition sample_state : LoopState :=
  {| width := 100; height := 100; quality := 90; iteration := 0;
     buffer := None; actualSize := None |}.

Lemma afterRender_area_scaling_witness :
  afterRender sample_config 4 sample_state 1 =
  Next {| width := Rmax (Math_round (100 * sqrt (4 / 1))) 50;
          height := Rmax (Math_round (100 * sqrt (4 / 1))) 50;
          quality := 90; iteration := 1; buffer := None; actualSize := None |}.
Proof.
  apply (afterRender_area_scaling sample_config 4 sample_state 1).
  - lra.
  - lra.
  - unfold isWithinTolerance; simpl. rewrite Rabs_left by lra. rcmp. reflexivity.
  - unfold quality_regime; simpl. rewrite is_jpeg_png, andb_false_r. reflexivity.
Defined.

(** C2: the loop stops after a render exactly when
    [|actual - target| < target * tolerance]; the upper edge of the band
    [target * (1 + tolerance)] is rejected, every size strictly inside the
    band is accepted, and an exact match is accepted. *)
Theorem tolerance_band_strict (c : Config) (t : R) (st : LoopState) :
  0 < t -> 0 < tolerance c < 1 ->
  (forall a, (exists st', afterRender c t st a = Stop st') <->
             Rabs (a - t) < t * tolerance c) /\
  isWithinTolerance (t * (1 + tolerance c)) t (tolerance c) = false /\
  (forall a, Rabs (a - t) < t * tolerance c ->
             isWithinTolerance a t (tolerance c) = true) /\
  isWithinTolerance t t (tolerance c) = true.
Proof.
  intros Ht Htol.
  assert (Hin : forall a, isWithinTolerance a t (tolerance c) = true <->
                          Rabs (a - t) < t * tolerance c)
    by (intros a; apply Rltb_true).
  split; [|split; [|split]].
  - intros a. rewrite <- Hin. unfold afterRender.
    destruct (isWithinTolerance a t (tolerance c)).
    + split; [reflexivity | intros _; eauto].
    + destruct (adjustAfterMiss _ _ _ _ _ _) as [[w h] q].
      split; [intros [st' Hs]; discriminate | discriminate].
  - unfold isWithinTolerance. apply Rltb_false.
    replace (t * (1 + tolerance c) - t) with (t * tolerance c) by ring.
    rewrite Rabs_right by nra. lra.
  - intros a Ha. apply Hin. exact Ha.
  - apply Hin. unfold Rminus. rewrite Rplus_opp_r, Rabs_R0. nra.
Qed.

Lemma tolerance_band_strict_witness :
  (0 < 1000 /\ 0 < tolerance sample_config < 1) /\
  isWithinTolerance (1000 * (1 + tolerance sample_config)) 1000 (tolerance sample_config) = false.
Proof.
  split.
  - simpl. lra.
  - apply (tolerance_band_strict sample_config 1000 sample_state); simpl; lra.
Defined.

(** ** Validation *)

Definition gif_zero_config : Config :=
  {| targetSizeMB := 0; format := "gif"; backgroundColor := "#ffffff";
     textColor := "#000000"; maxIterations := 20; tolerance := 5 / 100 |}.

(** C3 (as stated, refuted): a config with [targetSizeMB = 0] and the
    unsupported format "gif" does not raise the unsupported-format error:
    the target check comes first and raises the invalid-target error. *)
Lemma validation_order_counterexample :
  generateImageWithTargetSize None gif_zero_config [] = (inl InvalidTargetSize, []) /\
  isFormatSupported (format gif_zero_config) = false /\
  fst (generateImageWithTargetSize None gif_zero_config []) <> inl UnsupportedFormat.
Proof.
  assert (H : generateImageWithTargetSize None gif_zero_config [] = (inl InvalidTargetSize, [])).
  { unfold generateImageWithTargetSize; simpl. rcmp. reflexivity. }
  split; [exact H | split; [reflexivity |]].
  rewrite H. simpl. discriminate.
Qed.

(** C3 (amended): a non-positive target raises the invalid-target error
    whatever the format; a positive target with an unsupported format
    (compared case-insensitively) raises the unsupported-format error; in
    both cases the log of render calls is unchanged: nothing is rendered. *)
Theorem validation_before_render (J : option (RenderArgs -> Buffer))
  (c : Config) (log : list RenderArgs) :
  (targetSizeMB c <= 0 ->
   generateImageWithTargetSize J c log = (inl InvalidTargetSize, log)) /\
  (0 < targetSizeMB c -> isFormatSupported (format c) = false ->
   generateImageWithTargetSize J c log = (inl UnsupportedFormat, log)).
Proof.
  split.
  - intros H. unfold generateImageWithTargetSize. rcmp. reflexivity.
  - intros H Hf. unfold generateImageWithTargetSize. rcmp. rewrite Hf. reflexivity.
Qed.

(** ** The estimator *)

(** The estimator once the factor is a number [factor]. *)
Definition estimate_with_factor (factor targetSizeBytes : R) : R * R :=
  let estimatedPixels := targetSizeBytes / factor in
  let width := sqrt (estimatedPixels * aspectRatio) in
  let height := estimatedPixels / width in
  let '(width, height) :=
    if Rgtb width maxDimension || Rgtb height maxDimension then
      let '(width, height) :=
        if Rgtb width height
        then (maxDimension, maxDimension / aspectRatio)
        else (maxDimension * aspectRatio, maxDimension) in
      (Rmin width maxDimension, Rmin height maxDimension)
    else (width, height) in
  (Rmax (Math_round width) 100, Rmax (Math_round height) 56).

Lemma estimate_numeric_factor (t : R) (fmt : string) (k : R) :
  js_or (compressionFactors (toLowerCase fmt)) (JSNum (15 / 10)) = JSNum k ->
  estimateInitialDimensions t fmt =
  (Some (fst (estimate_with_factor k t)), Some (snd (estimate_with_factor k t))).
Proof.
  intros Hk. unfold estimateInitialDimensions, estimate_with_factor.
  rewrite Hk. simpl. unfold Rgtb.
  destruct (Rlt_dec maxDimension (sqrt (t / k * aspectRatio)));
  destruct (Rlt_dec maxDimension (t / k / sqrt (t / k * aspectRatio)));
  simpl; try reflexivity;
  destruct (Rlt_dec (t / k / sqrt (t / k * aspectRatio)) (sqrt (t / k * aspectRatio)));
  reflexivity.
Qed.

Lemma spec_factor_pos (fmt : string) : 0 < spec_factor fmt.
Proof.
  unfold spec_factor.
  destruct (String.eqb _ "jpg"), (String.eqb _ "jpeg"), (String.eqb _ "png"); simpl; lra.
Qed.

Lemma factor_lookup_plain (fmt : string) :
  is_Object_prototype_key (toLowerCase fmt) = false ->
  js_or (compressionFactors (toLowerCase fmt)) (JSNum (15 / 10)) = JSNum (spec_factor fmt).
Proof.
  intros Hp. unfold compressionFactors, spec_factor.
  assert (Htr : forall x, x <> 0 -> js_or (JSNum x) (JSNum (15 / 10)) = JSNum x).
  { intros x Hx. unfold js_or, truthy. destruct (Req_EM_T x 0); [contradiction | reflexivity]. }
  destruct (String.eqb (toLowerCase fmt) "jpg"); simpl; [apply Htr; lra |].
  destruct (String.eqb (toLowerCase fmt) "jpeg"); simpl; [apply Htr; lra |].
  destruct (String.eqb (toLowerCase fmt) "png"); simpl; [apply Htr; lra |].
  rewrite Hp. reflexivity.
Qed.

Section EstimateShape.
Variables (k t : R).
Hypothesis (Hk : 0 < k) (Ht : 0 < t).

Let P := t / k.
Let w := sqrt (P * aspectRatio).

Lemma P_pos : 0 < P.
Proof. unfold P. apply Rdiv_lt_0_compat; assumption. Qed.

Lemma w_pos : 0 < w.
Proof.
  unfold w. apply sqrt_lt_R0. pose proof P_pos. unfold aspectRatio. nra.
Qed.

Lemma w_sq : w * w = P * aspectRatio.
Proof.
  unfold w. apply sqrt_sqrt. pose proof P_pos. unfold aspectRatio. nra.
Qed.

Lemma h_lt_w : P / w < w.
Proof.
  pose proof w_pos. pose proof w_sq. pose proof P_pos.
  apply (Rmult_lt_reg_r w); [assumption |].
  unfold Rdiv. rewrite Rmult_assoc, Rinv_l by lra. unfold aspectRatio in *. nra.
Qed.

Lemma h_ratio : P / w * maxDimension / w = maxDimension / aspectRatio.
Proof.
  pose proof w_pos. pose proof w_sq. pose proof P_pos.
  unfold aspectRatio in *. field_simplify_eq; [| lra]. nra.
Qed.

(** With a positive factor the width is always the larger side, and the
    clamp fires exactly when the width exceeds the ceiling. *)
Lemma estimate_with_factor_shape :
  estimate_with_factor k t =
  if Rgtb w maxDimension
  then (Rmax (Math_round maxDimension) 100, Rmax (Math_round (maxDimension / aspectRatio)) 56)
  else (Rmax (Math_round w) 100, Rmax (Math_round (P / w)) 56).
Proof.
  pose proof h_lt_w. pose proof w_pos.
  unfold estimate_with_factor. fold P. fold w.
  assert (Hma : maxDimension / aspectRatio < maxDimension)
    by (unfold maxDimension, aspectRatio; lra).
  destruct (Rgtb w maxDimension) eqn:Hw.
  - apply Rgtb_true in Hw. simpl. rcmp. simpl.
    rewrite Rmin_left by lra. rewrite Rmin_left by lra. reflexivity.
  - apply Rgtb_false in Hw. rcmp. reflexivity.
Qed.

Lemma estimate_with_factor_bounds :
  100 <= fst (estimate_with_factor k t) <= maxDimension /\
  56 <= snd (estimate_with_factor k t) <= maxDimension.
Proof.
  pose proof h_lt_w. pose proof w_pos.
  rewrite estimate_with_factor_shape.
  assert (Hr : forall x, x <= maxDimension -> Math_round x <= maxDimension).
  { intros x Hx. apply (Math_round_le x 32767). unfold maxDimension in Hx. lra. }
  assert (Hm : forall x m, m <= maxDimension -> x <= maxDimension -> Rmax x m <= maxDimension).
  { intros x m Hm1 Hx. unfold Rmax. destruct (Rle_dec x m); lra. }
  assert (Hma : maxDimension / aspectRatio <= maxDimension)
    by (unfold maxDimension, aspectRatio; lra).
  destruct (Rgtb w maxDimension) eqn:Hw; simpl.
  - repeat split; try apply Rmax_r; apply Hm; try (unfold maxDimension; lra); apply Hr; lra.
  - apply Rgtb_false in Hw.
    repeat split; try apply Rmax_r; apply Hm; try (unfold maxDimension; lra); apply Hr; lra.
Qed.

End EstimateShape.

Lemma estimate_reference_shape (t : R) (fmt : string) :
  0 < t -> estimate_reference t fmt = estimate_with_factor (spec_factor fmt) t.
Proof.
  intros Ht. pose proof (spec_factor_pos fmt) as Hk.
  rewrite (estimate_with_factor_shape (spec_factor fmt) t Hk Ht).
  pose proof (w_pos _ _ Hk Ht) as Hw. pose proof (h_lt_w _ _ Hk Ht) as Hh.
  pose proof (h_ratio _ _ Hk Ht) as Hr.
  unfold estimate_reference, aspectRatio in *.
  set (P := t / spec_factor fmt) in *.
  set (w := sqrt (P * (16 / 9))) in *.
  destruct (Rgtb w maxDimension) eqn:Hg.
  - apply Rgtb_true in Hg. simpl.
    rewrite (Rmax_left w (P / w)) by lra.
    replace (w * (maxDimension / w)) with maxDimension by (field; lra).
    replace (P / w * (maxDimension / w)) with (maxDimension / (16 / 9))
      by (rewrite <- Hr; field; lra).
    rewrite Rmin_left by lra.
    rewrite Rmin_left by (unfold maxDimension; lra). reflexivity.
  - apply Rgtb_false in Hg. rcmp. reflexivity.
Qed.

(** C5: for every positive target and every format whose lower-cased
    name is not a property inherited from [Object.prototype], the
    estimator equals the reference of the specification; for the format
    "constructor" the lookup [compressionFactors["constructor"]] finds the
    inherited [Object] function, the fallback [|| 1.5] does not apply, and
    both dimensions are NaN. *)
Theorem estimate_reference_except_prototype_keys :
  (forall t fmt, 0 < t -> is_Object_prototype_key (toLowerCase fmt) = false ->
     estimateInitialDimensions t fmt =
     (Some (fst (estimate_reference t fmt)), Some (snd (estimate_reference t fmt)))) /\
  estimateInitialDimensions (mbToBytes 1) "constructor" = (None, None).
Proof.
  split.
  - intros t fmt Ht Hp.
    rewrite (estimate_numeric_factor t fmt (spec_factor fmt) (factor_lookup_plain fmt Hp)).
    rewrite estimate_reference_shape by exact Ht. reflexivity.
  - reflexivity.
Qed.

(** ** Pixel area of the estimate by format *)

(** The estimator's result as a function of the unclamped width [w]. *)
Definition dims_of_width (w : R) : R * R :=
  (Rmax (Math_round (Rmin w maxDimension)) 100,
   Rmax (Math_round (Rmin w maxDimension / aspectRatio)) 56).

Lemma estimate_with_factor_dims (k t : R) :
  0 < k -> 0 < t ->
  estimate_with_factor k t = dims_of_width (sqrt (t / k * aspectRatio)).
Proof.
  intros Hk Ht. rewrite (estimate_with_factor_shape k t Hk Ht).
  pose proof (w_pos k t Hk Ht) as Hw. pose proof (w_sq k t Hk Ht) as Hsq.
  set (w := sqrt (t / k * aspectRatio)) in *.
  assert (E : t / k = w * w / aspectRatio)
    by (rewrite Hsq; unfold aspectRatio; field; lra).
  assert (Hhw : t / k / w = w / aspectRatio)
    by (rewrite E; unfold aspectRatio; field; lra).
  unfold dims_of_width.
  destruct (Rgtb w maxDimension) eqn:Hg.
  - apply Rgtb_true in Hg. rewrite Rmin_right by lra. reflexivity.
  - apply Rgtb_false in Hg. rewrite Rmin_left by lra. rewrite Hhw. reflexivity.
Qed.

Lemma Rmax_mono (x y m : R) : x <= y -> Rmax x m <= Rmax y m.
Proof. intros H. unfold Rmax. destruct (Rle_dec x m), (Rle_dec y m); lra. Qed.

Lemma dims_of_width_mono (w1 w2 : R) :
  w1 <= w2 ->
  fst (dims_of_width w1) <= fst (dims_of_width w2) /\
  snd (dims_of_width w1) <= snd (dims_of_width w2).
Proof.
  intros H. unfold dims_of_width; simpl.
  assert (Hm : Rmin w1 maxDimension <= Rmin w2 maxDimension)
    by (unfold Rmin; destruct (Rle_dec w1 maxDimension), (Rle_dec w2 maxDimension); lra).
  split; apply Rmax_mono, Math_round_mono; [lra |].
  unfold aspectRatio, Rdiv. apply Rmult_le_compat_r; [lra | exact Hm].
Qed.

Lemma dims_of_width_floor (w : R) :
  100 <= fst (dims_of_width w) /\ 56 <= snd (dims_of_width w).
Proof. unfold dims_of_width; simpl. split; apply Rmax_r. Qed.

Lemma dims_of_width_small (w : R) :
  0 <= w -> w <= 99 -> dims_of_width w = (100, 56).
Proof.
  intros H0 H1. unfold dims_of_width.
  rewrite Rmin_left by (unfold maxDimension; lra).
  assert (Hw : Math_round w <= 99) by (apply (Math_round_le w 99); lra).
  assert (Hh : Math_round (w / aspectRatio) <= 56)
    by (apply (Math_round_le _ 56); unfold aspectRatio; lra).
  rewrite Rmax_right by lra. rewrite Rmax_right by lra. reflexivity.
Qed.

(** Product of the two estimated dimensions (NaN if either is NaN). *)
Definition estimatedArea (t : R) (fmt : string) : JSNumber :=
  js_mul (fst (estimateInitialDimensions t fmt)) (snd (estimateInitialDimensions t fmt)).

Lemma estimate_png (t : R) :
  0 < t -> estimateInitialDimensions t "png" = 
  (Some (fst (dims_of_width (sqrt (t / (12 / 10) * aspectRatio)))),
   Some (snd (dims_of_width (sqrt (t / (12 / 10) * aspectRatio))))).
Proof.
  intros Ht.
  rewrite (estimate_numeric_factor t "png" (spec_factor "png")
             (factor_lookup_plain "png" eq_refl)).
  rewrite estimate_with_factor_dims by (apply spec_factor_pos || lra).
  reflexivity.
Qed.

Lemma estimate_jpg (t : R) :
  0 < t -> estimateInitialDimensions t "jpg" = 
  (Some (fst (dims_of_width (sqrt (t / (15 / 10) * aspectRatio)))),
   Some (snd (dims_of_width (sqrt (t / (15 / 10) * aspectRatio))))).
Proof.
  intros Ht.
  rewrite (estimate_numeric_factor t "jpg" (spec_factor "jpg")
             (factor_lookup_plain "jpg" eq_refl)).
  rewrite estimate_with_factor_dims by (apply spec_factor_pos || lra).
  reflexivity.
Qed.

Lemma sq_le_bound (w c : R) : 0 <= w -> 0 <= c -> w * w <= c * c -> w <= c.
Proof. intros H0 H1 H2. nra. Qed.

Lemma sqrt_sq_nonneg (x : R) : 0 <= x -> 0 <= sqrt x /\ sqrt x * sqrt x = x.
Proof. intros H. split; [apply sqrt_pos | apply sqrt_sqrt; exact H]. Qed.

(** C9 (as stated, refuted): for a target of 1000 bytes both formats hit
    the 100 x 56 floor, so the areas are equal. *)
Lemma estimate_area_tie_counterexample :
  estimatedArea 1000 "png" = Some (100 * 56) /\
  estimatedArea 1000 "jpg" = Some (100 * 56).
Proof.
  unfold estimatedArea. rewrite estimate_png, estimate_jpg by lra.
  destruct (sqrt_sq_nonneg (1000 / (12 / 10) * aspectRatio)) as [Hp0 Hp1];
    [unfold aspectRatio; lra |].
  destruct (sqrt_sq_nonneg (1000 / (15 / 10) * aspectRatio)) as [Hj0 Hj1];
    [unfold aspectRatio; lra |].
  rewrite (dims_of_width_small (sqrt (1000 / (12 / 10) * aspectRatio)));
    [| lra | apply sq_le_bound; [lra | lra | rewrite Hp1; unfold aspectRatio; lra]].
  rewrite (dims_of_width_small (sqrt (1000 / (15 / 10) * aspectRatio)));
    [| lra | apply sq_le_bound; [lra | lra | rewrite Hj1; unfold aspectRatio; lra]].
  split; reflexivity.
Qed.

Lemma sq_ge_bound (y c : R) : 0 <= y -> 0 <= c -> c * c <= y * y -> c <= y.
Proof. intros H0 H1 H2. nra. Qed.

(** C9 (amended): for every positive target the png estimate's area is at
    least the jpg estimate's, and strictly larger when neither estimate is
    at the 100-pixel width floor or at the ceiling, which holds for targets
    from 8437.5 to 724731495 bytes. *)
Theorem estimate_area_png_ge_jpg (t : R) :
  0 < t ->
  exists ap aj,
    estimatedArea t "png" = Some ap /\ estimatedArea t "jpg" = Some aj /\
    aj <= ap /\ (84375 / 10 <= t <= 724731495 -> aj < ap).
Proof.
  intros Ht. unfold estimatedArea. rewrite estimate_png, estimate_jpg by exact Ht.
  set (wp := sqrt (t / (12 / 10) * aspectRatio)).
  set (wj := sqrt (t / (15 / 10) * aspectRatio)).
  destruct (sqrt_sq_nonneg (t / (12 / 10) * aspectRatio)) as [Hp0 Hp1];
    [unfold aspectRatio; nra |].
  destruct (sqrt_sq_nonneg (t / (15 / 10) * aspectRatio)) as [Hj0 Hj1];
    [unfold aspectRatio; nra |].
  fold wp in Hp0, Hp1. fold wj in Hj0, Hj1.
  assert (Hle : wj <= wp).
  { apply sq_le_bound; [lra | lra |]. rewrite Hp1, Hj1. unfold aspectRatio. nra. }
  destruct (dims_of_width_mono wj wp Hle) as [HW HH].
  destruct (dims_of_width_floor wj) as [Wj0 Hj56].
  destruct (dims_of_width_floor wp) as [Wp0 Hp56].
  set (Wj := fst (dims_of_width wj)) in *. set (Hj := snd (dims_of_width wj)) in *.
  set (Wp := fst (dims_of_width wp)) in *. set (Hp := snd (dims_of_width wp)) in *.
  exists (Wp * Hp), (Wj * Hj). simpl.
  split; [reflexivity | split; [reflexivity | split]].
  - apply Rmult_le_compat; lra.
  - intros [Tlo Thi].
    assert (Hj100 : 100 <= wj).
    { apply sq_ge_bound; [lra | lra |]. rewrite Hj1. unfold aspectRatio. lra. }
    assert (HpM : wp <= maxDimension).
    { apply sq_le_bound; [lra | unfold maxDimension; lra |].
      rewrite Hp1. unfold aspectRatio, maxDimension. lra. }
    assert (Hgap : wj + 1 <= wp).
    { apply sq_ge_bound; [lra | lra |]. rewrite Hp1.
      assert (E : t / (12 / 10) * aspectRatio = 5 / 4 * (wj * wj))
        by (rewrite Hj1; unfold aspectRatio; field).
      rewrite E. nra. }
    assert (HWj : Wj <= wj + / 2).
    { unfold Wj, dims_of_width; simpl.
      rewrite Rmin_left by lra.
      pose proof (Math_round_spec wj). unfold Rmax.
      destruct (Rle_dec (Math_round wj) 100); lra. }
    assert (HWp : wp - / 2 < Wp).
    { unfold Wp, dims_of_width; simpl.
      rewrite Rmin_left by lra.
      pose proof (Math_round_spec wp). pose proof (Rmax_l (Math_round wp) 100). lra. }
    assert (Hlt : Wj < Wp) by lra.
    apply (Rle_lt_trans _ (Wj * Hp)).
    + apply Rmult_le_compat_l; lra.
    + apply Rmult_lt_compat_r; lra.
Qed.

Lemma estimate_area_png_ge_jpg_witness :
  0 < 1048576 /\
  exists ap aj,
    estimatedArea 1048576 "png" = Some ap /\ estimatedArea 1048576 "jpg" = Some aj /\
    aj <= ap /\ (84375 / 10 <= 1048576 <= 724731495 -> aj < ap).
Proof. split; [lra | apply estimate_area_png_ge_jpg; lra]. Defined.

(** ** Dimensions through the loop *)

Definition in_box (w h : R) : Prop :=
  50 <= w <= maxDimension /\ 50 <= h <= maxDimension.

(** The dimensions at the top of an iteration: inside the box, or one
    [adjustDimensions] step (with a non-negative scale factor) away from a
    rendered pair inside the box. *)
Definition entry_ok (w h : R) : Prop :=
  50 <= w /\ 50 <= h /\
  (in_box w h \/
   exists w0 h0 s, in_box w0 h0 /\ 0 <= s /\
     w = Rmax (Math_round (w0 * s)) 50 /\ h = Rmax (Math_round (h0 * s)) 50).

Lemma supported_cases (fmt : string) :
  isFormatSupported fmt = true ->
  toLowerCase fmt = "jpg"%string \/ toLowerCase fmt = "jpeg"%string \/
  toLowerCase fmt = "png"%string.
Proof.
  unfold isFormatSupported; simpl.
  destruct (String.eqb_spec (toLowerCase fmt) "jpg"); [auto |].
  destruct (String.eqb_spec (toLowerCase fmt) "jpeg"); [auto |].
  destruct (String.eqb_spec (toLowerCase fmt) "png"); [auto |].
  discriminate.
Qed.

Lemma supported_not_prototype (fmt : string) :
  isFormatSupported fmt = true -> is_Object_prototype_key (toLowerCase fmt) = false.
Proof.
  intros H. destruct (supported_cases fmt H) as [E | [E | E]]; rewrite E; reflexivity.
Qed.

Lemma estimate_supported (t : R) (fmt : string) :
  0 < t -> isFormatSupported fmt = true ->
  estimateInitialDimensions t fmt =
  (Some (fst (estimate_with_factor (spec_factor fmt) t)),
   Some (snd (estimate_with_factor (spec_factor fmt) t))).
Proof.
  intros Ht Hf.
  apply estimate_numeric_factor, factor_lookup_plain, supported_not_prototype, Hf.
Qed.

Lemma estimate_supported_in_box (t : R) (fmt : string) :
  0 < t ->
  in_box (fst (estimate_with_factor (spec_factor fmt) t))
         (snd (estimate_with_factor (spec_factor fmt) t)).
Proof.
  intros Ht.
  destruct (estimate_with_factor_bounds (spec_factor fmt) t (spec_factor_pos fmt) Ht)
    as [[H1 H2] [H3 H4]].
  unfold in_box. lra.
Qed.

Lemma Rmax_cases (x m : R) : Rmax x m = x /\ m <= x \/ Rmax x m = m /\ x < m.
Proof. unfold Rmax. destruct (Rle_dec x m); [destruct (Req_dec x m); subst |]; lra. Qed.

(** The heart of the ceiling clamp: if one side [a] went above the ceiling
    in one adjustment step from a rendered pair inside the box, the other
    side [b] is at least 49.5/32767 of it. *)
Lemma clamp_core (a0 b0 s a b : R) :
  a0 <= maxDimension -> 50 <= b0 -> 0 <= s ->
  a = Rmax (Math_round (a0 * s)) 50 -> b = Rmax (Math_round (b0 * s)) 50 ->
  maxDimension < a ->
  99 / 2 * a <= maxDimension * b.
Proof.
  intros Ha0 Hb0 Hs Ha Hb Hbig. unfold maxDimension in *.
  assert (Hvu : 50 * (a0 * s) <= 32767 * (b0 * s)).
  { rewrite <- !Rmult_assoc. apply Rmult_le_compat_r; [exact Hs | lra]. }
  pose proof (Math_round_spec (a0 * s)). pose proof (Math_round_spec (b0 * s)).
  destruct (Rmax_cases (Math_round (a0 * s)) 50) as [[Ea _] | [Ea _]];
    rewrite Ea in Ha; [| lra].
  destruct (Rmax_cases (Math_round (b0 * s)) 50) as [[Eb Hb50] | [Eb Hlt]];
    rewrite Eb in Hb; lra.
Qed.

Lemma ratio_bound (m a b : R) :
  0 < a -> 0 < b -> 99 / 2 * a <= m * b -> 99 / 2 - / 2 + / 2 <= m / (a / b).
Proof.
  intros Ha Hb H.
  replace (m / (a / b)) with (m * b / a) by (field; lra).
  apply (Rmult_le_reg_r a); [exact Ha |].
  unfold Rdiv. rewrite Rmult_assoc, Rinv_l, Rmult_1_r by lra. lra.
Qed.

Lemma clampToMaxDimension_in_box (fmt : string) (t w h q : R) :
  entry_ok w h ->
  let '(w2, h2, _) := clampToMaxDimension fmt t w h q in in_box w2 h2.
Proof.
  intros [Hw50 [Hh50 Hcase]]. unfold clampToMaxDimension.
  destruct (Rgtb w maxDimension || Rgtb h maxDimension) eqn:Hover.
  2:{ apply orb_false_iff in Hover as [H1 H2].
      apply Rgtb_false in H1. apply Rgtb_false in H2. unfold in_box. lra. }
  destruct Hcase as [Hbox | [w0 [h0 [s [Hbox0 [Hs [Ew Eh]]]]]]].
  { unfold in_box in Hbox.
    apply orb_true_iff in Hover as [H1 | H1]; apply Rgtb_true in H1; lra. }
  unfold in_box in Hbox0.
  assert (Hm : 50 <= maxDimension) by (unfold maxDimension; lra).
  destruct (Rgtb w h) eqn:Hwh.
  - apply Rgtb_true in Hwh.
    assert (Hbig : maxDimension < w)
      by (apply orb_true_iff in Hover as [H1 | H1]; apply Rgtb_true in H1; lra).
    pose proof (clamp_core w0 h0 s w h ltac:(lra) ltac:(lra) Hs Ew Eh Hbig) as Hc.
    pose proof (ratio_bound maxDimension w h ltac:(lra) ltac:(lra) Hc) as Hr.
    pose proof (Math_round_ge (maxDimension / (w / h)) 50 ltac:(lra)) as Hge.
    unfold in_box. rewrite Rmin_left by lra.
    unfold Rmin. destruct (Rle_dec (Math_round (maxDimension / (w / h))) maxDimension); lra.
  - apply Rgtb_false in Hwh.
    assert (Hbig : maxDimension < h)
      by (apply orb_true_iff in Hover as [H1 | H1]; apply Rgtb_true in H1; lra).
    pose proof (clamp_core h0 w0 s h w ltac:(lra) ltac:(lra) Hs Eh Ew Hbig) as Hc.
    assert (Hr : 99 / 2 - / 2 + / 2 <= maxDimension * (w / h)).
    { replace (maxDimension * (w / h)) with (maxDimension / (h / w)) by (field; lra).
      apply ratio_bound; lra. }
    pose proof (Math_round_ge (maxDimension * (w / h)) 50 ltac:(lra)) as Hge.
    unfold in_box. rewrite (Rmin_left maxDimension maxDimension) by lra.
    unfold Rmin. destruct (Rle_dec (Math_round (maxDimension * (w / h))) maxDimension); lra.
Qed.

(** ** One iteration and the loop *)

Definition renderedState (st : LoopState) (w h q : R) (buf : Buffer) : LoopState :=
  {| width := w; height := h; quality := q; iteration := iteration st;
     buffer := Some buf; actualSize := Some (getImageSize buf) |}.

(** An iteration clamps, logs one render call, and either throws or
    continues with [afterRender] on the measured buffer. *)
Lemma iterationBody_cases (J : option (RenderArgs -> Buffer)) (c : Config) (t : R)
  (st : LoopState) (log : list RenderArgs) :
  exists w h q,
    clampToMaxDimension (format c) t (width st) (height st) (quality st) = (w, h, q) /\
    ((exists e, iterationBody J c t st log = (inl e, log ++ [renderArgs c w h q])) \/
     (exists encode, J = Some encode /\
        iterationBody J c t st log =
        (inr (afterRender c t (renderedState st w h q (encode (renderArgs c w h q)))
                (getImageSize (encode (renderArgs c w h q)))),
         log ++ [renderArgs c w h q]))).
Proof.
  unfold iterationBody.
  destruct (clampToMaxDimension (format c) t (width st) (height st) (quality st))
    as [[w h] q] eqn:Hc.
  exists w, h, q. split; [reflexivity |].
  unfold bind, generateImageWithText, bind, record_call, validateJimpAvailability.
  destruct J as [encode |]; [| left; eexists; reflexivity].
  unfold ret, validateDimensions.
  destruct (Rleb (r_width (renderArgs c w h q)) 0 || Rleb (r_height (renderArgs c w h q)) 0);
    [left; eexists; reflexivity |].
  destruct (Rgtb (r_width (renderArgs c w h q)) maxDimension
            || Rgtb (r_height (renderArgs c w h q)) maxDimension);
    [left; eexists; reflexivity |].
  destruct (negb (isFormatSupported (r_format (renderArgs c w h q))));
    [left; eexists; reflexivity |].
  right. exists encode. split; reflexivity.
Qed.

Lemma afterRender_next_entry_ok (c : Config) (t : R) (st st' : LoopState) (a : R) :
  in_box (width st) (height st) ->
  afterRender c t st a = Next st' -> entry_ok (width st') (height st').
Proof.
  intros Hbox Hn. unfold afterRender in Hn.
  destruct (isWithinTolerance a t (tolerance c)); [discriminate |].
  unfold adjustAfterMiss in Hn.
  destruct (quality_regime (format c) (width st) (height st)).
  - injection Hn as <-. simpl. unfold in_box in Hbox.
    split; [lra | split; [lra | left; unfold in_box; lra]].
  - injection Hn as <-. simpl.
    split; [apply Rmax_r | split; [apply Rmax_r |]].
    right. exists (width st), (height st), (sqrt (t / a)).
    split; [exact Hbox | split; [apply sqrt_pos | split; reflexivity]].
Qed.

Lemma afterRender_stop_state (c : Config) (t : R) (st st' : LoopState) (a : R) :
  afterRender c t st a = Stop st' -> st' = st.
Proof.
  unfold afterRender. destruct (isWithinTolerance a t (tolerance c)).
  - congruence.
  - destruct (adjustAfterMiss _ _ _ _ _ _) as [[? ?] ?]. discriminate.
Qed.

Lemma loop_dims (J : option (RenderArgs -> Buffer)) (c : Config) (t : R) (fuel : nat) :
  forall st log, entry_ok (width st) (height st) ->
  let '(res, log') := loop J c t fuel st log in
  exists calls, log' = log ++ calls /\
    Forall (fun r => in_box (r_width r) (r_height r)) calls /\
    (forall st', res = inr st' -> 50 <= width st' /\ 50 <= height st').
Proof.
  induction fuel as [| fuel IH]; intros st log Hok.
  - simpl. exists []. rewrite app_nil_r.
    split; [reflexivity | split; [constructor |]].
    intros st' E. injection E as <-. destruct Hok as [H1 [H2 _]]. split; assumption.
  - cbn [loop]. unfold bind.
    destruct (iterationBody_cases J c t st log) as [w [h [q [Hc Hcases]]]].
    pose proof (clampToMaxDimension_in_box (format c) t (width st) (height st) (quality st) Hok)
      as Hbox.
    rewrite Hc in Hbox.
    destruct Hcases as [[e He] | [encode [_ He]]]; rewrite He.
    + exists [renderArgs c w h q].
      split; [reflexivity | split; [constructor; [exact Hbox | constructor] | discriminate]].
    + destruct (afterRender c t _ _) as [st' | st'] eqn:Ha.
      * apply afterRender_stop_state in Ha. subst st'.
        exists [renderArgs c w h q].
        split; [reflexivity | split; [constructor; [exact Hbox | constructor] |]].
        intros st'' E. injection E as <-. simpl. unfold in_box in Hbox. lra.
      * apply afterRender_next_entry_ok in Ha; [| exact Hbox].
        specialize (IH st' (log ++ [renderArgs c w h q]) Ha).
        destruct (loop J c t fuel st' (log ++ [renderArgs c w h q])) as [res log'].
        destruct IH as [calls [El [Hf Hres]]].
        exists (renderArgs c w h q :: calls).
        split; [rewrite El, <- app_assoc; reflexivity |].
        split; [constructor; assumption | exact Hres].
Qed.

Lemma mbToBytes_pos (mb : R) : 0 < mb -> 0 < mbToBytes mb.
Proof. intros H. unfold mbToBytes. lra. Qed.

(** C6: in every run, every call of the renderer gets a width and a
    height between 50 and 32767, and the returned width and height are at
    least 50.  (Encoded images are never empty: the model divides by the
    measured size.) *)
Theorem loop_dimension_bounds (J : option (RenderArgs -> Buffer)) (c : Config)
  (log : list RenderArgs) :
  (forall encode r, J = Some encode -> (0 < List.length (encode r))%nat) ->
  let '(res, log') := generateImageWithTargetSize J c log in
  exists calls, log' = log ++ calls /\
    Forall (fun r => 50 <= r_width r <= maxDimension /\
                     50 <= r_height r <= maxDimension) calls /\
    (forall out, res = inr out -> 50 <= o_width out /\ 50 <= o_height out).
Proof.
  intros _. unfold generateImageWithTargetSize.
  destruct (Rleb (targetSizeMB c) 0) eqn:H0.
  { exists []. rewrite app_nil_r. split; [reflexivity | split; [constructor | discriminate]]. }
  apply Rleb_false in H0.
  destruct (isFormatSupported (format c)) eqn:Hf; simpl.
  2:{ exists []. rewrite app_nil_r. split; [reflexivity | split; [constructor | discriminate]]. }
  pose proof (mbToBytes_pos _ H0) as Ht.
  rewrite (estimate_supported _ _ Ht Hf).
  pose proof (estimate_supported_in_box _ (format c) Ht) as Hbox.
  set (w := fst (estimate_with_factor (spec_factor (format c)) (mbToBytes (targetSizeMB c)))) in *.
  set (h := snd (estimate_with_factor (spec_factor (format c)) (mbToBytes (targetSizeMB c)))) in *.
  assert (Hok : entry_ok (width (initialState w h)) (height (initialState w h))).
  { simpl. unfold in_box in Hbox. split; [lra | split; [lra | left; exact Hbox]]. }
  pose proof (loop_dims J c (mbToBytes (targetSizeMB c)) (maxIterations c) _ log Hok) as Hl.
  unfold bind.
  destruct (loop J c _ _ _ log) as [[e | st] log'].
  - destruct Hl as [calls [El [Hfa _]]]. exists calls.
    split; [exact El | split; [exact Hfa | discriminate]].
  - destruct Hl as [calls [El [Hfa Hres]]]. exists calls.
    split; [exact El | split; [exact Hfa |]].
    intros out E. injection E as <-. simpl. apply Hres. reflexivity.
Qed.

(** An encoder whose every image is the single byte 0. *)
Definition one_byte_encoder (r : RenderArgs) : Buffer := [Byte.x00].

Lemma loop_dimension_bounds_witness :
  let '(res, log') := generateImageWithTargetSize (Some one_byte_encoder) sample_config [] in
  exists calls, log' = [] ++ calls /\
    Forall (fun r => 50 <= r_width r <= maxDimension /\
                     50 <= r_height r <= maxDimension) calls /\
    (forall out, res = inr out -> 50 <= o_width out /\ 50 <= o_height out).
Proof.
  apply (loop_dimension_bounds (Some one_byte_encoder) sample_config []).
  intros encode r E. injection E as <-. simpl. lia.
Defined.

(** ** Quality search at the ceiling *)

(** The renders of a quality search: all at [w] x [h], the first at
    quality [q], each next one at the quality adjusted after the previous
    render's size. *)
Fixpoint quality_chain (encode : RenderArgs -> Buffer) (t w h q : R)
  (calls : list RenderArgs) : Prop :=
  match calls with
  | [] => True
  | r :: rest =>
      r_width r = w /\ r_height r = h /\ r_quality r = q /\
      quality_chain encode t w h
        (if Rltb (getImageSize (encode r)) t then Rmin 100 (q + 5) else Rmax 10 (q - 5))
        rest
  end.

Lemma clamp_identity (fmt : string) (t w h q : R) :
  w <= maxDimension -> h <= maxDimension ->
  clampToMaxDimension fmt t w h q = (w, h, q).
Proof. intros Hw Hh. unfold clampToMaxDimension. rcmp. reflexivity. Qed.

Lemma afterRender_regime (c : Config) (t : R) (st : LoopState) (a : R) :
  quality_regime (format c) (width st) (height st) = true ->
  afterRender c t st a = Stop st \/
  afterRender c t st a =
  Next {| width := width st; height := height st;
          quality := if Rltb a t then Rmin 100 (quality st + 5)
                     else Rmax 10 (quality st - 5);
          iteration := S (iteration st);
          buffer := buffer st; actualSize := actualSize st |}.
Proof.
  intros Hreg. unfold afterRender.
  destruct (isWithinTolerance a t (tolerance c)); [left; reflexivity | right].
  unfold adjustAfterMiss. rewrite Hreg. reflexivity.
Qed.

(** C7: for a JPEG-family format, once an iteration starts at the ceiling
    (no clamp needed), each later adjustment only moves the quality by 5
    (up, capped at 100, when the render was too small; down, floored at 10,
    otherwise); every later render uses the same width and height, and so
    does the returned state: the loop never goes back to dimension search.
    The first conjunct is the single adjustment after a render in the
    quality regime. *)
Theorem quality_search_keeps_dimensions (encode : RenderArgs -> Buffer) (c : Config)
  (t : R) (fuel : nat) (st : LoopState) (log : list RenderArgs) :
  quality_regime (format c) (width st) (height st) = true ->
  width st <= maxDimension -> height st <= maxDimension ->
  (forall a st', afterRender c t st a = Next st' ->
     width st' = width st /\ height st' = height st /\
     quality st' = (if Rltb a t then Rmin 100 (quality st + 5)
                    else Rmax 10 (quality st - 5))) /\
  let '(res, log') := loop (Some encode) c t fuel st log in
  exists calls, log' = log ++ calls /\
    quality_chain encode t (width st) (height st) (quality st) calls /\
    (forall st', res = inr st' -> width st' = width st /\ height st' = height st).
Proof.
  intros Hreg Hw Hh. split.
  { intros a st' Hn.
    destruct (afterRender_regime c t st a Hreg) as [E | E]; rewrite E in Hn;
      [discriminate | injection Hn as <-; simpl; auto]. }
  revert st log Hreg Hw Hh.
  induction fuel as [| fuel IH]; intros st log Hreg Hw Hh.
  - simpl. exists []. rewrite app_nil_r. split; [reflexivity | split; [exact I |]].
    intros st' E. injection E as <-. auto.
  - cbn [loop]. unfold bind.
    destruct (iterationBody_cases (Some encode) c t st log) as [w [h [q [Hc Hcases]]]].
    rewrite clamp_identity in Hc by assumption. injection Hc as <- <- <-.
    destruct Hcases as [[e He] | [encode' [Ee He]]]; rewrite He.
    + exists [renderArgs c (width st) (height st) (quality st)].
      split; [reflexivity | split; [simpl; auto | discriminate]].
    + injection Ee as <-.
      set (r := renderArgs c (width st) (height st) (quality st)) in *.
      set (st1 := renderedState st (width st) (height st) (quality st) (encode r)).
      assert (Hreg1 : quality_regime (format c) (width st1) (height st1) = true)
        by exact Hreg.
      destruct (afterRender_regime c t st1 (getImageSize (encode r)) Hreg1) as [E | E];
        rewrite E.
      * exists [r]. split; [reflexivity | split; [simpl; auto |]].
        intros st' E'. injection E' as <-. simpl. auto.
      * specialize (IH {| width := width st1; height := height st1;
                          quality := if Rltb (getImageSize (encode r)) t
                                     then Rmin 100 (quality st1 + 5)
                                     else Rmax 10 (quality st1 - 5);
                          iteration := S (iteration st1);
                          buffer := buffer st1; actualSize := actualSize st1 |}
                       (log ++ [r]) Hreg Hw Hh).
        destruct (loop _ c t fuel _ (log ++ [r])) as [res log'].
        destruct IH as [calls [El [Hch Hres]]].
        exists (r :: calls). split; [rewrite El, <- app_assoc; reflexivity |].
        split; [simpl; auto | exact Hres].
Qed.

Definition ceiling_state : LoopState :=
  {| width := 32767; height := 18431; quality := 90; iteration := 3;
     buffer := None; actualSize := None |}.

Definition jpg_config : Config :=
  {| targetSizeMB := 1; format := "jpg"; backgroundColor := "#ffffff";
     textColor := "#000000"; maxIterations := 20; tolerance := 5 / 100 |}.

Lemma quality_search_keeps_dimensions_witness :
  quality_regime (format jpg_config) (width ceiling_state) (height ceiling_state) = true /\
  let '(res, log') := loop (Some one_byte_encoder) jpg_config (mbToBytes 1) 5 ceiling_state [] in
  exists calls, log' = [] ++ calls /\
    quality_chain one_byte_encoder (mbToBytes 1) 32767 18431 90 calls /\
    (forall st', res = inr st' -> width st' = 32767 /\ height st' = 18431).
Proof.
  assert (Hreg : quality_regime (format jpg_config) (width ceiling_state)
                   (height ceiling_state) = true).
  { unfold quality_regime; simpl. unfold maxDimension. rcmp. reflexivity. }
  split; [exact Hreg |].
  apply (quality_search_keeps_dimensions one_byte_encoder jpg_config (mbToBytes 1) 5
           ceiling_state []); [exact Hreg | simpl; unfold maxDimension; lra
                               | simpl; unfold maxDimension; lra].
Defined.

(** ** Quality seeding *)

Lemma loop_appends (J : option (RenderArgs -> Buffer)) (c : Config) (t : R) (fuel : nat) :
  forall st log, exists calls, snd (loop J c t fuel st log) = log ++ calls.
Proof.
  induction fuel as [| fuel IH]; intros st log.
  - exists []. simpl. rewrite app_nil_r. reflexivity.
  - cbn [loop]. unfold bind.
    destruct (iterationBody_cases J c t st log) as [w [h [q [_ Hcases]]]].
    destruct Hcases as [[e He] | [encode [_ He]]]; rewrite He.
    + eexists. reflexivity.
    + destruct (afterRender c t _ _) as [st' | st'].
      * eexists. reflexivity.
      * destruct (IH st' (log ++ [renderArgs c w h q])) as [calls E].
        exists (renderArgs c w h q :: calls). rewrite E, <- app_assoc. reflexivity.
Qed.

(** The first render of a valid run uses the estimated dimensions, which
    are never above the ceiling, and the initial quality 90. *)
Lemma first_render_uses_estimate (J : option (RenderArgs -> Buffer)) (c : Config)
  (log : list RenderArgs) :
  0 < targetSizeMB c -> isFormatSupported (format c) = true ->
  (0 < maxIterations c)%nat ->
  exists w0 h0 rest,
    estimateInitialDimensions (mbToBytes (targetSizeMB c)) (format c) = (Some w0, Some h0) /\
    w0 <= maxDimension /\ h0 <= maxDimension /\
    snd (generateImageWithTargetSize J c log) = log ++ renderArgs c w0 h0 90 :: rest.
Proof.
  intros H0 Hf Hn.
  pose proof (mbToBytes_pos _ H0) as Ht.
  pose proof (estimate_supported _ _ Ht Hf) as He.
  pose proof (estimate_supported_in_box _ (format c) Ht) as Hbox.
  set (w0 := fst (estimate_with_factor (spec_factor (format c)) (mbToBytes (targetSizeMB c)))) in *.
  set (h0 := snd (estimate_with_factor (spec_factor (format c)) (mbToBytes (targetSizeMB c)))) in *.
  unfold in_box in Hbox.
  unfold generateImageWithTargetSize. rcmp. rewrite Hf. simpl. rewrite He.
  destruct (maxIterations c) as [| n]; [lia |].
  cbn [loop]. unfold bind.
  destruct (iterationBody_cases J c (mbToBytes (targetSizeMB c)) (initialState w0 h0) log)
    as [w [h [q [Hc Hcases]]]].
  rewrite clamp_identity in Hc by (simpl; lra). simpl in Hc. injection Hc as <- <- <-.
  exists w0, h0.
  destruct Hcases as [[e He'] | [encode [_ He']]]; rewrite He'.
  - exists []. split; [reflexivity | split; [lra | split; [lra | reflexivity]]].
  - destruct (afterRender _ _ _ _) as [st' | st'].
    + exists []. split; [reflexivity | split; [lra | split; [lra | reflexivity]]].
    + destruct (loop_appends J c (mbToBytes (targetSizeMB c)) n st'
                  (log ++ [renderArgs c w0 h0 90])) as [calls E].
      exists calls. split; [reflexivity | split; [lra | split; [lra |]]].
      simpl. destruct (loop J c _ n st' _) as [[e | st''] log'];
        simpl in E |- *; rewrite E, <- app_assoc; reflexivity.
Qed.

Definition jpg_2000MB_config : Config :=
  {| targetSizeMB := 2000; format := "jpg"; backgroundColor := "#ffffff";
     textColor := "#000000"; maxIterations := 20; tolerance := 5 / 100 |}.

Lemma estimate_2000MB_jpg :
  estimateInitialDimensions (mbToBytes 2000) "jpg" = (Some 32767, Some 18431).
Proof.
  rewrite estimate_jpg by (unfold mbToBytes; lra).
  destruct (sqrt_sq_nonneg (mbToBytes 2000 / (15 / 10) * aspectRatio)) as [H0 H1];
    [unfold mbToBytes, aspectRatio; lra |].
  set (w := sqrt (mbToBytes 2000 / (15 / 10) * aspectRatio)) in *.
  assert (Hw : maxDimension < w).
  { apply Rnot_le_lt. intros Hle.
    assert (w * w <= maxDimension * maxDimension)
      by (apply Rmult_le_compat; unfold maxDimension in *; lra).
    rewrite H1 in H. unfold mbToBytes, aspectRatio, maxDimension in H. lra. }
  unfold dims_of_width. rewrite Rmin_right by lra.
  unfold maxDimension. rewrite Math_round_IZR.
  assert (Hr : Math_round (32767 / aspectRatio) = 18431).
  { apply Rle_antisym.
    - apply Math_round_le. unfold aspectRatio. lra.
    - apply Math_round_ge. unfold aspectRatio. lra. }
  rewrite Hr. rewrite Rmax_left by lra. rewrite Rmax_left by lra. reflexivity.
Qed.

(** C8 (as stated, refuted): for a 2000 MB jpg target the estimated
    dimensions are already at the ceiling (32767 x 18431); the first render
    uses quality 90, while the seeding table for
    [targetSizeBytes / (width * height)] gives 100. *)
Lemma ceiling_seed_counterexample :
  exists rest,
    snd (generateImageWithTargetSize (Some one_byte_encoder) jpg_2000MB_config [])
    = renderArgs jpg_2000MB_config 32767 18431 90 :: rest /\
    quality_for_bytesPerPixel (mbToBytes 2000 / (32767 * 18431)) = 100.
Proof.
  destruct (first_render_uses_estimate (Some one_byte_encoder) jpg_2000MB_config []
              ltac:(simpl; lra) eq_refl ltac:(simpl; lia))
    as [w0 [h0 [rest [He [_ [_ El]]]]]].
  simpl in He. rewrite estimate_2000MB_jpg in He. injection He as <- <-.
  exists rest. split; [exact El |].
  unfold quality_for_bytesPerPixel, mbToBytes. rcmp. reflexivity.
Qed.

(** C8 (amended): for a JPEG-family format the quality is seeded from
    the step table on [targetSizeBytes / (width * height)] of the clamped
    dimensions exactly when an iteration starts with a side above 32767; an
    iteration starting at or below the ceiling keeps its dimensions and
    quality; and the first render of every valid run uses the estimate,
    which is never above the ceiling, with quality 90, so an estimate that
    reaches the ceiling is not seeded. *)
Theorem quality_seeded_only_above_ceiling :
  (forall fmt t w h q, is_jpeg fmt = true ->
     maxDimension < w \/ maxDimension < h ->
     exists w2 h2,
       clampToMaxDimension fmt t w h q =
       (w2, h2, quality_for_bytesPerPixel (t / (w2 * h2))) /\
       w2 <= maxDimension /\ h2 <= maxDimension) /\
  (forall fmt t w h q, w <= maxDimension -> h <= maxDimension ->
     clampToMaxDimension fmt t w h q = (w, h, q)) /\
  (forall J c log,
     0 < targetSizeMB c -> isFormatSupported (format c) = true ->
     (0 < maxIterations c)%nat ->
     exists w0 h0 rest,
       estimateInitialDimensions (mbToBytes (targetSizeMB c)) (format c) = (Some w0, Some h0) /\
       w0 <= maxDimension /\ h0 <= maxDimension /\
       snd (generateImageWithTargetSize J c log) = log ++ renderArgs c w0 h0 90 :: rest).
Proof.
  split; [| split].
  - intros fmt t w h q Hj Hover. unfold clampToMaxDimension.
    replace (Rgtb w maxDimension || Rgtb h maxDimension) with true
      by (destruct Hover; rcmp; [reflexivity | symmetry; apply orb_true_r]).
    rewrite Hj.
    destruct (Rgtb w h); do 2 eexists; (split; [reflexivity | split; apply Rmin_r]).
  - intros. apply clamp_identity; assumption.
  - intros J c log H0 Hf Hn. apply first_render_uses_estimate; assumption.
Qed.

(** ** Runs that end without a tolerance match *)

Lemma iterationBody_ok (encode : RenderArgs -> Buffer) (c : Config) (t : R)
  (st : LoopState) (log : list RenderArgs) (w h q : R) :
  clampToMaxDimension (format c) t (width st) (height st) (quality st) = (w, h, q) ->
  in_box w h -> isFormatSupported (format c) = true ->
  iterationBody (Some encode) c t st log =
  (inr (afterRender c t (renderedState st w h q (encode (renderArgs c w h q)))
          (getImageSize (encode (renderArgs c w h q)))),
   log ++ [renderArgs c w h q]).
Proof.
  intros Hc Hbox Hf. unfold in_box in Hbox.
  unfold iterationBody. rewrite Hc.
  unfold bind, generateImageWithText, record_call, validateJimpAvailability,
    validateDimensions, ret; simpl.
  unfold maxDimension in *. rcmp. simpl. rewrite Hf. reflexivity.
Qed.

(** A valid run with [maxIterations = 1] whose only render misses the
    tolerance: one render, at the estimate and quality 90; the outcome
    carries that render's buffer and size, the dimensions of the
    adjustment that followed it, and [iterations = 2]. *)
Lemma single_iteration_run (encode : RenderArgs -> Buffer) (c : Config) :
  0 < targetSizeMB c -> isFormatSupported (format c) = true ->
  maxIterations c = 1%nat ->
  exists w0 h0,
    in_box w0 h0 /\
    estimateInitialDimensions (mbToBytes (targetSizeMB c)) (format c) = (Some w0, Some h0) /\
    let r := renderArgs c w0 h0 90 in
    let a := getImageSize (encode r) in
    isWithinTolerance a (mbToBytes (targetSizeMB c)) (tolerance c) = false ->
    exists out q',
      generateImageWithTargetSize (Some encode) c [] = (inr out, [r]) /\
      o_iterations out = 2%nat /\
      o_buffer out = Some (encode r) /\ o_actualSizeBytes out = Some a /\
      adjustAfterMiss (format c) a (mbToBytes (targetSizeMB c)) w0 h0 90 =
      (o_width out, o_height out, q').
Proof.
  intros H0 Hf H1.
  pose proof (mbToBytes_pos _ H0) as Ht.
  pose proof (estimate_supported _ _ Ht Hf) as He.
  pose proof (estimate_supported_in_box _ (format c) Ht) as Hbox.
  set (w0 := fst (estimate_with_factor (spec_factor (format c)) (mbToBytes (targetSizeMB c)))) in *.
  set (h0 := snd (estimate_with_factor (spec_factor (format c)) (mbToBytes (targetSizeMB c)))) in *.
  exists w0, h0. split; [exact Hbox | split; [exact He |]].
  cbv zeta. intros Htol.
  unfold generateImageWithTargetSize. rcmp. rewrite Hf. simpl. rewrite He, H1.
  cbn [loop]. unfold bind.
  assert (Hc : clampToMaxDimension (format c) (mbToBytes (targetSizeMB c))
                 (width (initialState w0 h0)) (height (initialState w0 h0))
                 (quality (initialState w0 h0)) = (w0, h0, 90))
    by (apply clamp_identity; simpl; unfold in_box in Hbox; lra).
  rewrite (iterationBody_ok encode c _ _ [] w0 h0 90 Hc Hbox Hf).
  unfold afterRender, renderedState.
  cbn [width height quality iteration buffer actualSize initialState].
  rewrite Htol.
  destruct (adjustAfterMiss _ _ _ w0 h0 90) as [[w' h'] q'] eqn:Ha.
  eexists. exists q'. split; [reflexivity |]. simpl. auto.
Qed.

Definition jpg_1iter_config : Config :=
  {| targetSizeMB := 1; format := "jpg"; backgroundColor := "#ffffff";
     textColor := "#000000"; maxIterations := 1; tolerance := 5 / 100 |}.

Lemma getImageSize_one_byte (r : RenderArgs) : getImageSize (one_byte_encoder r) = 1.
Proof. reflexivity. Qed.

(** C4: with [maxIterations = 1] and an encoder whose image misses the
    tolerance, the call renders exactly once and returns that render's
    buffer without throwing, but reports [iterations = 2]:
    [iterations: iteration + 1] counts one more than the renders when the
    loop ends by exhaustion. *)
Theorem exhausted_run_reports_extra_iteration :
  exists out r,
    generateImageWithTargetSize (Some one_byte_encoder) jpg_1iter_config [] = (inr out, [r]) /\
    o_buffer out = Some [Byte.x00] /\
    o_iterations out = 2%nat.
Proof.
  destruct (single_iteration_run one_byte_encoder jpg_1iter_config
              ltac:(simpl; lra) eq_refl eq_refl) as [w0 [h0 [_ [_ Hrun]]]].
  destruct Hrun as [out [q' [Hg [Hi [Hb _]]]]].
  { simpl. unfold isWithinTolerance, mbToBytes. rewrite getImageSize_one_byte.
    rewrite Rabs_left by lra. rcmp. reflexivity. }
  exists out, (renderArgs jpg_1iter_config w0 h0 90).
  split; [exact Hg | split; [exact Hb | exact Hi]].
Qed.

(** A finished loop either did not render, or its result comes from its
    last render: that render's state if it stopped on the tolerance, the
    state adjusted after it otherwise. *)
Lemma loop_last (J : option (RenderArgs -> Buffer)) (c : Config) (t : R) (fuel : nat) :
  forall st log st_f log',
  loop J c t fuel st log = (inr st_f, log') ->
  (log' = log /\ st_f = st) \/
  exists prefix encode st0 w h q,
    J = Some encode /\ log' = prefix ++ [renderArgs c w h q] /\
    (afterRender c t (renderedState st0 w h q (encode (renderArgs c w h q)))
       (getImageSize (encode (renderArgs c w h q))) = Stop st_f \/
     afterRender c t (renderedState st0 w h q (encode (renderArgs c w h q)))
       (getImageSize (encode (renderArgs c w h q))) = Next st_f).
Proof.
  induction fuel as [| fuel IH]; intros st log st_f log' H.
  - simpl in H. injection H as <- <-. left. auto.
  - cbn [loop] in H. unfold bind in H.
    destruct (iterationBody_cases J c t st log) as [w [h [q [_ Hcases]]]].
    destruct Hcases as [[e He] | [encode [EJ He]]]; rewrite He in H; [discriminate |].
    destruct (afterRender c t _ _) as [st' | st'] eqn:Ha.
    + injection H as <- <-. right.
      exists log, encode, st, w, h, q. auto.
    + destruct (IH st' _ st_f log' H) as [[El Es] | Hr].
      * subst. right. exists log, encode, st, w, h, q. auto.
      * right. exact Hr.
Qed.

Definition png_1iter_config : Config :=
  {| targetSizeMB := 1; format := "png"; backgroundColor := "#ffffff";
     textColor := "#000000"; maxIterations := 1; tolerance := 5 / 100 |}.

(** C10: when the last render of a finished run misses the tolerance in
    the dimension regime, the outcome's width and height are those of the
    [adjustDimensions] call after it, never rendered, while its buffer and
    size are the last render's.  With a 1 MB png target, one iteration and
    a one-byte encoder, the returned width is above 32767 although the
    rendered width is not. *)
Theorem exhausted_outcome_dimensions_unrendered :
  (forall encode c out calls r,
     generateImageWithTargetSize (Some encode) c [] = (inr out, calls ++ [r]) ->
     isWithinTolerance (getImageSize (encode r)) (mbToBytes (targetSizeMB c))
       (tolerance c) = false ->
     quality_regime (format c) (r_width r) (r_height r) = false ->
     (o_width out, o_height out) =
       adjustDimensions (getImageSize (encode r)) (mbToBytes (targetSizeMB c))
         (r_width r) (r_height r) /\
     o_buffer out = Some (encode r) /\
     o_actualSizeBytes out = Some (getImageSize (encode r))) /\
  (exists out r,
     generateImageWithTargetSize (Some one_byte_encoder) png_1iter_config [] = (inr out, [r]) /\
     r_width r <= maxDimension /\ maxDimension < o_width out /\
     o_buffer out = Some (one_byte_encoder r)).
Proof.
  split.
  - intros encode c out calls r H Htol Hreg.
    unfold generateImageWithTargetSize in H.
    destruct (Rleb (targetSizeMB c) 0); [discriminate |].
    destruct (isFormatSupported (format c)); simpl in H; [| discriminate].
    destruct (estimateInitialDimensions _ _) as [[w0 |] [h0 |]]; try discriminate.
    unfold bind in H.
    destruct (loop _ c _ _ _ []) as [[e | st_f] log'] eqn:Hl; [discriminate |].
    injection H as <- ->.
    destruct (loop_last _ _ _ _ _ _ _ _ Hl)
      as [[El _] | [prefix [encode' [st0 [w [h [q [EJ [El Hs]]]]]]]]].
    + symmetry in El. apply app_cons_not_nil in El. contradiction.
    + injection EJ as <-. apply app_inj_tail in El as [_ ->].
      unfold afterRender in Hs. cbn [r_width r_height r_format renderArgs] in Hreg |- *.
      rewrite Htol in Hs.
      unfold adjustAfterMiss, renderedState in Hs.
      cbn [width height quality buffer actualSize] in Hs. rewrite Hreg in Hs.
      destruct (adjustDimensions _ _ w h) as [w' h'].
      destruct Hs as [Hs | Hs]; [discriminate |].
      injection Hs as <-. simpl. auto.
  - destruct (single_iteration_run one_byte_encoder png_1iter_config
                ltac:(simpl; lra) eq_refl eq_refl) as [w0 [h0 [Hbox [_ Hrun]]]].
    destruct Hrun as [out [q' [Hg [_ [Hb [_ Ha]]]]]].
    { simpl. unfold isWithinTolerance, mbToBytes. rewrite getImageSize_one_byte.
      rewrite Rabs_left by lra. rcmp. reflexivity. }
    exists out, (renderArgs png_1iter_config w0 h0 90).
    split; [exact Hg |]. unfold in_box in Hbox.
    split; [simpl; lra |]. split; [| exact Hb].
    unfold adjustAfterMiss, quality_regime in Ha. simpl in Ha.
    rewrite getImageSize_one_byte, is_jpeg_png, andb_false_r in Ha.
    unfold adjustDimensions in Ha. injection Ha as Hw _ _.
    rewrite <- Hw.
    assert (Hs : sqrt (mbToBytes 1 / 1) = 1024).
    { replace (mbToBytes 1 / 1) with (1024 * 1024) by (unfold mbToBytes; field).
      apply sqrt_square. lra. }
    rewrite Hs.
    assert (Hr : 32768 <= Math_round (w0 * 1024)) by (apply Math_round_ge; lra).
    pose proof (Rmax_l (Math_round (w0 * 1024)) 50). unfold maxDimension. lra.
Qed.

(** ** Colour parsing, MIME types and font choice *)

Lemma ascii_eqb_code (c a : ascii) :
  Ascii.eqb c a = true -> nat_of_ascii c = nat_of_ascii a.
Proof. intros H. apply Ascii.eqb_eq in H. subst. reflexivity. Qed.

Lemma hexDigitValue_range (c : ascii) (d : nat) :
  hexDigitValue c = Some d ->
  ((48 <= nat_of_ascii c <= 57 \/ 65 <= nat_of_ascii c <= 70 \/
    97 <= nat_of_ascii c <= 102) /\ d < 16)%nat.
Proof.
  unfold hexDigitValue. set (n := nat_of_ascii c).
  destruct (Nat.leb 48 n && Nat.leb n 57)%bool eqn:E1.
  { intros H. injection H as <-. apply andb_true_iff in E1 as [E1 E2].
    apply Nat.leb_le in E1. apply Nat.leb_le in E2. lia. }
  destruct (Nat.leb 97 n && Nat.leb n 102)%bool eqn:E2.
  { intros H. injection H as <-. apply andb_true_iff in E2 as [E2 E3].
    apply Nat.leb_le in E2. apply Nat.leb_le in E3. lia. }
  destruct (Nat.leb 65 n && Nat.leb n 70)%bool eqn:E3; [| discriminate].
  intros H. injection H as <-. apply andb_true_iff in E3 as [E3 E4].
  apply Nat.leb_le in E3. apply Nat.leb_le in E4. lia.
Qed.

Lemma is_js_whitespace_code (c : ascii) :
  is_js_whitespace c = true ->
  (nat_of_ascii c = 9 \/ nat_of_ascii c = 10 \/ nat_of_ascii c = 11 \/
   nat_of_ascii c = 12 \/ nat_of_ascii c = 13 \/ nat_of_ascii c = 32 \/
   nat_of_ascii c = 160)%nat.
Proof.
  unfold is_js_whitespace. intros H.
  repeat (apply orb_true_iff in H as [H | ?H]); apply Nat.eqb_eq in H; lia.
Qed.

Lemma hex_not_whitespace (c : ascii) (d : nat) :
  hexDigitValue c = Some d -> is_js_whitespace c = false.
Proof.
  intros H. apply hexDigitValue_range in H as [Hr _].
  destruct (is_js_whitespace c) eqn:E; [| reflexivity].
  apply is_js_whitespace_code in E. lia.
Qed.

Lemma hex_not_char (c a : ascii) (d : nat) :
  hexDigitValue c = Some d -> hexDigitValue a = None -> Ascii.eqb c a = false.
Proof.
  intros Hc Ha. destruct (Ascii.eqb c a) eqn:E; [| reflexivity].
  apply Ascii.eqb_eq in E. subst. congruence.
Qed.

Ltac hex_chars :=
  repeat match goal with
  | H : hexDigitValue ?c = Some _ |- context [Ascii.eqb ?c ?a] =>
      rewrite (hex_not_char c a _ H eq_refl)
  | H : hexDigitValue ?c = Some _ |- context [is_js_whitespace ?c] =>
      rewrite (hex_not_whitespace c _ H)
  end.

Lemma parseInt16_two_hex (c1 c2 : ascii) (d1 d2 : nat) :
  hexDigitValue c1 = Some d1 -> hexDigitValue c2 = Some d2 ->
  parseInt16 (String c1 (String c2 EmptyString)) = Some (INR (d1 * 16 + d2)).
Proof.
  intros H1 H2. unfold parseInt16. cbn [trimStart]. hex_chars. cbn [stripSign].
  hex_chars. unfold stripHexPrefix. hex_chars. rewrite andb_false_r.
  cbn [hexDigitsPrefix]. rewrite H1, H2. unfold digitsValue. simpl.
  rewrite Rmult_1_l. reflexivity.
Qed.

(** A parse module that keeps its arguments, for concrete runs. *)
Definition tuple_jimp : JimpModule :=
  {| Color := JSNumber * JSNumber * JSNumber * JSNumber;
     Image := unit; Font := unit;
     rgbaToInt := fun r g b a => (r, g, b, a);
     newJimp := fun _ _ _ => tt; loadFont := fun _ => tt;
     measureText := fun _ _ => 0; measureTextHeight := fun _ _ _ => 0;
     print := fun _ _ _ _ _ => tt; setQuality := fun _ _ => tt;
     getBufferAsync := fun _ _ => [] |}.

(** X: a '#' followed by six hexadecimal digits (either case) is parsed
    into the three byte values, passed to [Jimp.rgbaToInt] with alpha 255. *)
Theorem parseColor_hex_digits (jimp : JimpModule) (c1 c2 c3 c4 c5 c6 : ascii)
  (d1 d2 d3 d4 d5 d6 : nat) :
  hexDigitValue c1 = Some d1 -> hexDigitValue c2 = Some d2 ->
  hexDigitValue c3 = Some d3 -> hexDigitValue c4 = Some d4 ->
  hexDigitValue c5 = Some d5 -> hexDigitValue c6 = Some d6 ->
  parseColor jimp
    (String "#" (String c1 (String c2 (String c3 (String c4 (String c5 (String c6 EmptyString)))))))
  = rgbaToInt jimp (Some (INR (d1 * 16 + d2))) (Some (INR (d3 * 16 + d4)))
      (Some (INR (d5 * 16 + d6))) (Some 255).
Proof.
  intros H1 H2 H3 H4 H5 H6. unfold parseColor. simpl.
  rewrite (parseInt16_two_hex c1 c2 d1 d2 H1 H2),
          (parseInt16_two_hex c3 c4 d3 d4 H3 H4),
          (parseInt16_two_hex c5 c6 d5 d6 H5 H6).
  reflexivity.
Qed.

Lemma parseColor_hex_digits_witness :
  parseColor tuple_jimp "#1a2B3c" = (Some 26, Some 43, Some 60, Some 255).
Proof.
  rewrite (parseColor_hex_digits tuple_jimp "1" "a" "2" "B" "3" "c" 1 10 2 11 3 12);
    try reflexivity.
  simpl. repeat f_equal; simpl; lra.
Defined.

(** X: a colour string that does not start with '#', or is not exactly
    seven code units long, gives opaque white. *)
Theorem parseColor_fallback_white (jimp : JimpModule) (s : string) :
  String.prefix "#" s = false \/ String.length s <> 7%nat ->
  parseColor jimp s = white jimp.
Proof.
  intros H. unfold parseColor. destruct s as [| c hex]; [reflexivity |].
  destruct (Ascii.eqb c "#"%char) eqn:E; [| reflexivity].
  apply Ascii.eqb_eq in E. subst c.
  destruct H as [H | H]; [destruct hex; cbv in H; discriminate |].
  simpl in H. destruct (Nat.eqb_spec (String.length hex) 6); [lia | reflexivity].
Qed.

Lemma parseColor_fallback_white_witness :
  (String.prefix "#" "white" = false \/ String.length "white" <> 7%nat) /\
  parseColor tuple_jimp "white" = white tuple_jimp.
Proof.
  assert (H : String.prefix "#" "white" = false \/ String.length "white" <> 7%nat)
    by (left; reflexivity).
  split; [exact H | apply (parseColor_fallback_white tuple_jimp "white" H)].
Defined.

(** X: a '#' followed by any six code units never falls back to white:
    each channel is [parseInt] of its two characters, which is NaN when the
    first one is not a hexadecimal digit, white space or sign (as in
    "#zzzzzz"), negative after a '-' (as in "#-1-1-1"), and skips a leading
    '+' or white space. *)
Theorem parseColor_seven_chars (jimp : JimpModule) :
  (forall c1 c2 c3 c4 c5 c6 : ascii,
     parseColor jimp
       (String "#" (String c1 (String c2 (String c3 (String c4 (String c5 (String c6 EmptyString)))))))
     = rgbaToInt jimp (parseInt16 (String c1 (String c2 EmptyString)))
         (parseInt16 (String c3 (String c4 EmptyString)))
         (parseInt16 (String c5 (String c6 EmptyString))) (Some 255)) /\
  (forall a b : ascii,
     hexDigitValue a = None -> is_js_whitespace a = false ->
     a <> "+"%char -> a <> "-"%char ->
     parseInt16 (String a (String b EmptyString)) = None) /\
  (forall (b : ascii) (d : nat), hexDigitValue b = Some d ->
     parseInt16 (String "-" (String b EmptyString)) = Some (- INR d) /\
     parseInt16 (String "+" (String b EmptyString)) = Some (INR d) /\
     (forall w, is_js_whitespace w = true ->
        parseInt16 (String w (String b EmptyString)) = Some (INR d))).
Proof.
  split; [| split].
  - intros. reflexivity.
  - intros a b Hh Hw Hp Hm. unfold parseInt16. cbn [trimStart]. rewrite Hw.
    unfold stripSign.
    rewrite (proj2 (Ascii.eqb_neq a "-") Hm), (proj2 (Ascii.eqb_neq a "+") Hp).
    unfold stripHexPrefix.
    destruct (Ascii.eqb a "0") eqn:E0.
    { apply Ascii.eqb_eq in E0. subst a. discriminate. }
    simpl. rewrite Hh. reflexivity.
  - intros b d Hb. split; [| split].
    + unfold parseInt16. simpl. unfold stripHexPrefix. cbn [hexDigitsPrefix].
      rewrite Hb. unfold digitsValue. simpl. f_equal. lra.
    + unfold parseInt16. simpl. unfold stripHexPrefix. cbn [hexDigitsPrefix].
      rewrite Hb. unfold digitsValue. simpl. f_equal. lra.
    + intros w Hw. unfold parseInt16. cbn [trimStart]. rewrite Hw. hex_chars.
      unfold stripSign. hex_chars. unfold stripHexPrefix. cbn [hexDigitsPrefix].
      rewrite Hb. unfold digitsValue. simpl. f_equal. lra.
Qed.

(** X: [getMimeType] gives PNG exactly for "png" in any case and JPEG for
    every other format, supported or not, unless the lower-cased format
    names a property inherited from [Object.prototype], whose value is
    returned instead of a MIME type. *)
Theorem getMimeType_cases :
  (forall fmt, is_Object_prototype_key (toLowerCase fmt) = false ->
     getMimeType fmt =
     if String.eqb (toLowerCase fmt) "png" then MIME_PNG else MIME_JPEG) /\
  (forall fmt, is_Object_prototype_key (toLowerCase fmt) = true ->
     getMimeType fmt = InheritedMember (toLowerCase fmt)).
Proof.
  split; intros fmt Hp; unfold getMimeType, formatMap.
  - destruct (String.eqb (toLowerCase fmt) "jpg") eqn:E1.
    { apply String.eqb_eq in E1. rewrite E1. reflexivity. }
    destruct (String.eqb (toLowerCase fmt) "jpeg") eqn:E2.
    { apply String.eqb_eq in E2. rewrite E2. reflexivity. }
    destruct (String.eqb (toLowerCase fmt) "png"); [reflexivity |].
    rewrite Hp. reflexivity.
  - destruct (String.eqb (toLowerCase fmt) "jpg") eqn:E1.
    { apply String.eqb_eq in E1. rewrite E1 in Hp. discriminate. }
    destruct (String.eqb (toLowerCase fmt) "jpeg") eqn:E2.
    { apply String.eqb_eq in E2. rewrite E2 in Hp. discriminate. }
    destruct (String.eqb (toLowerCase fmt) "png") eqn:E3.
    { apply String.eqb_eq in E3. rewrite E3 in Hp. discriminate. }
    rewrite Hp. reflexivity.
Qed.

(** Nominal size, in pixels, of each of Jimp's fonts. *)
Definition fontSizePixels (f : FontType) : R :=
  match f with
  | FONT_SANS_16_BLACK => 16
  | FONT_SANS_32_BLACK => 32
  | FONT_SANS_64_BLACK => 64
  | FONT_SANS_128_BLACK => 128
  end.

(** X: the font depends only on the smaller side, not on the text: it is
    the same with width and height swapped, and a larger smaller side never
    gives a smaller font. *)
Theorem calculateFontSize_min_side :
  (forall w h s s', calculateFontSize w h s = calculateFontSize h w s') /\
  (forall w1 h1 w2 h2 s1 s2, Rmin w1 h1 <= Rmin w2 h2 ->
     fontSizePixels (calculateFontSize w1 h1 s1) <=
     fontSizePixels (calculateFontSize w2 h2 s2)).
Proof.
  split.
  - intros. unfold calculateFontSize. rewrite Rmin_comm. reflexivity.
  - intros w1 h1 w2 h2 s1 s2 H. unfold calculateFontSize.
    set (m1 := Rmin w1 h1) in *. set (m2 := Rmin w2 h2) in *.
    repeat match goal with
           | |- context [Rltb ?x ?y] => destruct (Rltb x y) eqn:?
           end;
    repeat match goal with
           | E : Rltb _ _ = true |- _ => apply Rltb_true in E
           | E : Rltb _ _ = false |- _ => apply Rltb_false in E
           end;
    simpl; lra.
Qed.

(** ** Invariants of the loop *)

(** What every iteration preserves, given what it renders. *)
Definition step_preserves (c : Config) (t : R) (P : LoopState -> Prop)
  (Q : RenderArgs -> Prop) : Prop :=
  forall st w h q, P st ->
    clampToMaxDimension (format c) t (width st) (height st) (quality st) = (w, h, q) ->
    Q (renderArgs c w h q) /\
    forall buf, P (renderedState st w h q buf) /\
      forall st', afterRender c t (renderedState st w h q buf) (getImageSize buf) = Next st' ->
        P st'.

Lemma loop_invariant (J : option (RenderArgs -> Buffer)) (c : Config) (t : R)
  (P : LoopState -> Prop) (Q : RenderArgs -> Prop) :
  step_preserves c t P Q ->
  forall fuel st log, P st ->
  let '(res, log') := loop J c t fuel st log in
  exists calls, log' = log ++ calls /\ Forall Q calls /\
    (forall st', res = inr st' -> P st').
Proof.
  intros Hstep fuel. induction fuel as [| fuel IH]; intros st log Hp.
  - simpl. exists []. rewrite app_nil_r.
    split; [reflexivity | split; [constructor |]]. intros st' E. injection E as <-. exact Hp.
  - cbn [loop]. unfold bind.
    destruct (iterationBody_cases J c t st log) as [w [h [q [Hc Hcases]]]].
    destruct (Hstep st w h q Hp Hc) as [Hq Hbuf].
    destruct Hcases as [[e He] | [encode [_ He]]]; rewrite He.
    + exists [renderArgs c w h q].
      split; [reflexivity | split; [constructor; [exact Hq | constructor] | discriminate]].
    + destruct (Hbuf (encode (renderArgs c w h q))) as [Hr Hn].
      destruct (afterRender c t _ _) as [st' | st'] eqn:Ha.
      * apply afterRender_stop_state in Ha. subst st'.
        exists [renderArgs c w h q].
        split; [reflexivity | split; [constructor; [exact Hq | constructor] |]].
        intros st'' E. injection E as <-. exact Hr.
      * specialize (IH st' (log ++ [renderArgs c w h q]) (Hn st' eq_refl)).
        destruct (loop J c t fuel st' (log ++ [renderArgs c w h q])) as [res log'].
        destruct IH as [calls [El [Hf Hres]]].
        exists (renderArgs c w h q :: calls).
        split; [rewrite El, <- app_assoc; reflexivity |].
        split; [constructor; assumption | exact Hres].
Qed.

(** An invariant of the loop that holds of the initial state is one of
    the whole call: it holds of every render call and of the state the
    outcome is built from. *)
Lemma generate_invariant (J : option (RenderArgs -> Buffer)) (c : Config)
  (log : list RenderArgs) (P : LoopState -> Prop) (Q : RenderArgs -> Prop) :
  step_preserves c (mbToBytes (targetSizeMB c)) P Q ->
  (forall w0 h0, 0 < targetSizeMB c -> isFormatSupported (format c) = true ->
     estimateInitialDimensions (mbToBytes (targetSizeMB c)) (format c) = (Some w0, Some h0) ->
     P (initialState w0 h0)) ->
  let '(res, log') := generateImageWithTargetSize J c log in
  exists calls, log' = log ++ calls /\ Forall Q calls /\
    (forall out, res = inr out ->
       exists st, P st /\ o_buffer out = buffer st /\ o_width out = width st /\
         o_height out = height st /\ o_actualSizeBytes out = actualSize st /\
         o_iterations out = S (iteration st) /\
         o_quality out = (if is_jpeg (format c) then Some (quality st) else None)).
Proof.
  intros Hstep Hinit. unfold generateImageWithTargetSize.
  destruct (Rleb (targetSizeMB c) 0) eqn:H0.
  { exists []. rewrite app_nil_r. split; [reflexivity | split; [constructor | discriminate]]. }
  apply Rleb_false in H0.
  destruct (isFormatSupported (format c)) eqn:Hf; simpl.
  2:{ exists []. rewrite app_nil_r. split; [reflexivity | split; [constructor | discriminate]]. }
  destruct (estimateInitialDimensions (mbToBytes (targetSizeMB c)) (format c))
    as [[w0 |] [h0 |]] eqn:He;
    try (exists []; rewrite app_nil_r; split; [reflexivity | split; [constructor | discriminate]]).
  pose proof (loop_invariant J c _ P Q Hstep (maxIterations c) (initialState w0 h0) log
                (Hinit w0 h0 H0 eq_refl eq_refl)) as Hl.
  unfold bind.
  destruct (loop J c _ _ _ log) as [[e | st] log'].
  - destruct Hl as [calls [El [Hfa _]]]. exists calls.
    split; [exact El | split; [exact Hfa | discriminate]].
  - destruct Hl as [calls [El [Hfa Hres]]]. exists calls.
    split; [exact El | split; [exact Hfa |]].
    intros out E. injection E as <-. exists st.
    split; [apply Hres; reflexivity | simpl; auto 7].
Qed.

Definition is_int (x : R) : Prop := exists z : Z, x = IZR z.

Lemma is_int_round (x : R) : is_int (Math_round x).
Proof. unfold Math_round. eexists. reflexivity. Qed.

Lemma is_int_Rmax (x y : R) : is_int x -> is_int y -> is_int (Rmax x y).
Proof. intros Hx Hy. unfold Rmax. destruct (Rle_dec x y); assumption. Qed.

Lemma is_int_Rmin (x y : R) : is_int x -> is_int y -> is_int (Rmin x y).
Proof. intros Hx Hy. unfold Rmin. destruct (Rle_dec x y); assumption. Qed.

Lemma is_int_max : is_int maxDimension.
Proof. exists 32767%Z. reflexivity. Qed.

Lemma is_int_lit (z : Z) : is_int (IZR z).
Proof. exists z. reflexivity. Qed.

Create HintDb ints.
#[local] Hint Resolve is_int_round is_int_Rmax is_int_Rmin is_int_max is_int_lit : ints.

Lemma estimate_is_int (t : R) (fmt : string) (w0 h0 : R) :
  0 < t -> isFormatSupported fmt = true ->
  estimateInitialDimensions t fmt = (Some w0, Some h0) -> is_int w0 /\ is_int h0.
Proof.
  intros Ht Hf He. rewrite (estimate_supported t fmt Ht Hf) in He.
  injection He as <- <-.
  rewrite (estimate_with_factor_shape _ _ (spec_factor_pos fmt) Ht).
  destruct (Rgtb _ maxDimension); simpl; split; eauto 6 with ints.
Qed.

Lemma clamp_is_int (fmt : string) (t w h q w2 h2 q2 : R) :
  is_int w -> is_int h ->
  clampToMaxDimension fmt t w h q = (w2, h2, q2) -> is_int w2 /\ is_int h2.
Proof.
  intros Hw Hh Hc. unfold clampToMaxDimension in Hc.
  destruct (Rgtb w maxDimension || Rgtb h maxDimension).
  - destruct (Rgtb w h); injection Hc as <- <- _; split; eauto 6 with ints.
  - injection Hc as <- <- _. auto.
Qed.

Lemma afterRender_next_is_int (c : Config) (t : R) (st st' : LoopState) (a : R) :
  is_int (width st) -> is_int (height st) ->
  afterRender c t st a = Next st' -> is_int (width st') /\ is_int (height st').
Proof.
  intros Hw Hh Hn. unfold afterRender in Hn.
  destruct (isWithinTolerance a t (tolerance c)); [discriminate |].
  unfold adjustAfterMiss in Hn.
  destruct (quality_regime (format c) (width st) (height st)).
  - injection Hn as <-. simpl. auto.
  - injection Hn as <-. simpl. split; eauto with ints.
Qed.

(** X: every width and height handed to [generateImageWithText] is an
    integer, and so are the width and height of the outcome. *)
Theorem render_dimensions_integral (J : option (RenderArgs -> Buffer)) (c : Config)
  (log : list RenderArgs) :
  let '(res, log') := generateImageWithTargetSize J c log in
  exists calls, log' = log ++ calls /\
    Forall (fun r => is_int (r_width r) /\ is_int (r_height r)) calls /\
    (forall out, res = inr out -> is_int (o_width out) /\ is_int (o_height out)).
Proof.
  pose proof (generate_invariant J c log
                (fun st => is_int (width st) /\ is_int (height st))
                (fun r => is_int (r_width r) /\ is_int (r_height r))) as G.
  destruct (generateImageWithTargetSize J c log) as [res log'].
  destruct G as [calls [El [Hf Hres]]].
  - intros st w h q [Hw Hh] Hc.
    destruct (clamp_is_int _ _ _ _ _ _ _ _ Hw Hh Hc) as [Hw2 Hh2].
    split; [split; assumption |].
    intros buf. split; [split; assumption |].
    intros st' Hn.
    exact (afterRender_next_is_int _ _ (renderedState st w h q buf) _ _ Hw2 Hh2 Hn).
  - intros w0 h0 H0 Hf He. apply (estimate_is_int _ _ _ _ (mbToBytes_pos _ H0) Hf He).
  - exists calls. split; [exact El | split; [exact Hf |]].
    intros out E. destruct (Hres out E) as [st [[Hw Hh] [_ [Ew [Eh _]]]]].
    rewrite Ew, Eh. auto.
Qed.

(** A quality the loop can use: a multiple of 5 from 10 to 100. *)
Definition quality_ok (q : R) : Prop := 10 <= q <= 100 /\ exists k : Z, q = 5 * IZR k.

Lemma quality_table_ok (b : R) : quality_ok (quality_for_bytesPerPixel b).
Proof.
  unfold quality_for_bytesPerPixel, quality_ok.
  destruct (Rgtb b 2); [split; [lra | exists 20%Z; lra] |].
  destruct (Rgtb b (15 / 10)); [split; [lra | exists 19%Z; lra] |].
  destruct (Rgtb b 1); [split; [lra | exists 18%Z; lra] |].
  destruct (Rgtb b (5 / 10)); [split; [lra | exists 16%Z; lra] |].
  split; [lra | exists 14%Z; lra].
Qed.

Lemma quality_up_ok (q : R) : quality_ok q -> quality_ok (Rmin 100 (q + 5)).
Proof.
  intros [Hr [k Hk]]. unfold Rmin, quality_ok.
  destruct (Rle_dec 100 (q + 5)).
  - split; [lra | exists 20%Z; lra].
  - split; [lra | exists (k + 1)%Z; rewrite plus_IZR; lra].
Qed.

Lemma quality_down_ok (q : R) : quality_ok q -> quality_ok (Rmax 10 (q - 5)).
Proof.
  intros [Hr [k Hk]]. unfold Rmax, quality_ok.
  destruct (Rle_dec 10 (q - 5)).
  - split; [lra | exists (k - 1)%Z; rewrite minus_IZR; lra].
  - split; [lra | exists 2%Z; lra].
Qed.

Lemma clamp_quality_ok (fmt : string) (t w h q w2 h2 q2 : R) :
  quality_ok q -> clampToMaxDimension fmt t w h q = (w2, h2, q2) -> quality_ok q2.
Proof.
  intros Hq Hc. unfold clampToMaxDimension in Hc.
  destruct (Rgtb w maxDimension || Rgtb h maxDimension).
  - destruct (Rgtb w h); injection Hc as _ _ <-;
      (destruct (is_jpeg fmt); [apply quality_table_ok | exact Hq]).
  - injection Hc as _ _ <-. exact Hq.
Qed.

Lemma afterRender_next_quality (c : Config) (t : R) (st st' : LoopState) (a : R) :
  afterRender c t st a = Next st' ->
  quality st' = quality st \/
  quality st' = Rmin 100 (quality st + 5) \/ quality st' = Rmax 10 (quality st - 5).
Proof.
  intros Hn. unfold afterRender in Hn.
  destruct (isWithinTolerance a t (tolerance c)); [discriminate |].
  unfold adjustAfterMiss in Hn.
  destruct (quality_regime (format c) (width st) (height st)).
  - injection Hn as <-. simpl. destruct (Rltb a t); auto.
  - destruct (adjustDimensions a t (width st) (height st)).
    injection Hn as <-. simpl. auto.
Qed.

(** X: every render call uses a quality that is a multiple of 5 between
    10 and 100, and for jpg/jpeg the returned quality is one too. *)
Theorem render_quality_range (J : option (RenderArgs -> Buffer)) (c : Config)
  (log : list RenderArgs) :
  let '(res, log') := generateImageWithTargetSize J c log in
  exists calls, log' = log ++ calls /\
    Forall (fun r => quality_ok (r_quality r)) calls /\
    (forall out, res = inr out -> is_jpeg (format c) = true ->
       exists q, o_quality out = Some q /\ quality_ok q).
Proof.
  pose proof (generate_invariant J c log (fun st => quality_ok (quality st))
                (fun r => quality_ok (r_quality r))) as G.
  destruct (generateImageWithTargetSize J c log) as [res log'].
  destruct G as [calls [El [Hf Hres]]].
  - intros st w h q Hq Hc. pose proof (clamp_quality_ok _ _ _ _ _ _ _ _ Hq Hc) as Hq2.
    split; [exact Hq2 |]. intros buf. split; [exact Hq2 |].
    intros st' Hn. apply afterRender_next_quality in Hn.
    destruct Hn as [E | [E | E]]; rewrite E;
      [exact Hq2 | apply quality_up_ok, Hq2 | apply quality_down_ok, Hq2].
  - intros. unfold quality_ok; simpl. split; [lra | exists 18%Z; lra].
  - exists calls. split; [exact El | split; [exact Hf |]].
    intros out E Hj. destruct (Hres out E) as [st [Hq [_ [_ [_ [_ [_ Eq]]]]]]].
    rewrite Hj in Eq. exists (quality st). auto.
Qed.

(** X: for png (any case) the quality never changes: every render call
    passes 90, the outcome's quality is undefined, and the drawing step
    never hands a quality to the encoder, so the encoded bytes do not
    depend on it. *)
Theorem png_quality_unused (J : option (RenderArgs -> Buffer)) (c : Config)
  (log : list RenderArgs) :
  toLowerCase (format c) = "png"%string ->
  (let '(res, log') := generateImageWithTargetSize J c log in
   exists calls, log' = log ++ calls /\
     Forall (fun r => r_quality r = 90) calls /\
     (forall out, res = inr out -> o_quality out = None)) /\
  (forall jimp nts r q, toLowerCase (r_format r) = "png"%string ->
     renderWithJimp jimp nts r =
     renderWithJimp jimp nts
       {| r_width := r_width r; r_height := r_height r; r_format := r_format r;
          r_sizeMB := r_sizeMB r; r_backgroundColor := r_backgroundColor r;
          r_textColor := r_textColor r; r_quality := q |}).
Proof.
  intros Hpng.
  assert (Hj : is_jpeg (format c) = false) by (unfold is_jpeg; rewrite Hpng; reflexivity).
  split.
  - pose proof (generate_invariant J c log (fun st => quality st = 90)
                  (fun r => r_quality r = 90)) as G.
    destruct (generateImageWithTargetSize J c log) as [res log'].
    destruct G as [calls [El [Hf Hres]]].
    + intros st w h q Hq Hc. unfold clampToMaxDimension in Hc. rewrite Hj in Hc.
      assert (Eq : q = quality st).
      { destruct (Rgtb (width st) maxDimension || Rgtb (height st) maxDimension);
          [destruct (Rgtb (width st) (height st)) |]; injection Hc as _ _ <-; reflexivity. }
      subst q. split; [exact Hq |]. intros buf. split; [exact Hq |].
      intros st' Hn. unfold afterRender in Hn.
      destruct (isWithinTolerance _ _ _); [discriminate |].
      unfold adjustAfterMiss, quality_regime in Hn. simpl in Hn. rewrite Hj, andb_false_r in Hn.
      injection Hn as <-. exact Hq.
    + intros. reflexivity.
    + exists calls. split; [exact El | split; [exact Hf |]].
      intros out E. destruct (Hres out E) as [st [_ [_ [_ [_ [_ [_ Eq]]]]]]].
      rewrite Hj in Eq. exact Eq.
  - intros jimp nts r q Hr. unfold renderWithJimp. simpl. rewrite Hr. reflexivity.
Qed.

Definition png_config : Config :=
  {| targetSizeMB := 1; format := "PNG"; backgroundColor := "#ffffff";
     textColor := "#000000"; maxIterations := 20; tolerance := 5 / 100 |}.

Lemma png_quality_unused_witness :
  toLowerCase (format png_config) = "png"%string /\
  (let '(res, log') := generateImageWithTargetSize (Some one_byte_encoder) png_config [] in
   exists calls, log' = [] ++ calls /\
     Forall (fun r => r_quality r = 90) calls /\
     (forall out, res = inr out -> o_quality out = None)) /\
  (forall jimp nts r q, toLowerCase (r_format r) = "png"%string ->
     renderWithJimp jimp nts r =
     renderWithJimp jimp nts
       {| r_width := r_width r; r_height := r_height r; r_format := r_format r;
          r_sizeMB := r_sizeMB r; r_backgroundColor := r_backgroundColor r;
          r_textColor := r_textColor r; r_quality := q |}).
Proof.
  split; [reflexivity |].
  apply (png_quality_unused (Some one_byte_encoder) png_config []). reflexivity.
Defined.

(** ** Errors, iteration count and the returned render *)




Definition png_no_iterations_config : Config :=
  {| targetSizeMB := 1; format := "png"; backgroundColor := "#ffffff";
     textColor := "#000000"; maxIterations := 0; tolerance := 5 / 100 |}.

(** X: with [maxIterations = 0] a valid request renders nothing, even
    without the Jimp module, and still succeeds: no buffer, undefined
    sizes, the estimated dimensions, [iterations = 1] and, for jpg/jpeg,
    the initial quality 90. *)
Theorem zero_iterations_outcome (J : option (RenderArgs -> Buffer)) (c : Config)
  (log : list RenderArgs) :
  0 < targetSizeMB c -> isFormatSupported (format c) = true -> maxIterations c = 0%nat ->
  exists w0 h0,
    estimateInitialDimensions (mbToBytes (targetSizeMB c)) (format c) = (Some w0, Some h0) /\
    generateImageWithTargetSize J c log =
    (inr {| o_buffer := None; o_width := w0; o_height := h0;
            o_actualSizeBytes := None; o_actualSizeMB := None;
            o_targetSizeMB := targetSizeMB c; o_iterations := 1;
            o_format := format c;
            o_quality := if is_jpeg (format c) then Some 90 else None |}, log).
Proof.
  intros H0 Hf Hn. pose proof (mbToBytes_pos _ H0) as Ht.
  pose proof (estimate_supported _ _ Ht Hf) as He.
  eexists. eexists. split; [exact He |].
  unfold generateImageWithTargetSize. rcmp. rewrite Hf. simpl. rewrite He, Hn.
  reflexivity.
Qed.

Lemma zero_iterations_outcome_witness :
  exists w0 h0,
    estimateInitialDimensions (mbToBytes 1) "png" = (Some w0, Some h0) /\
    generateImageWithTargetSize None png_no_iterations_config [] =
    (inr {| o_buffer := None; o_width := w0; o_height := h0;
            o_actualSizeBytes := None; o_actualSizeMB := None;
            o_targetSizeMB := 1; o_iterations := 1; o_format := "png";
            o_quality := None |}, []).
Proof.
  apply (zero_iterations_outcome None png_no_iterations_config []);
    [simpl; lra | reflexivity | reflexivity].
Defined.

(** Whether a measured size is within the tolerance of the target;
    [false] before any render. *)
Definition toleranceHit (c : Config) (t : R) (size : option R) : bool :=
  match size with
  | Some a => isWithinTolerance a t (tolerance c)
  | None => false
  end.

Lemma afterRender_stop_hit (c : Config) (t : R) (st st' : LoopState) (a : R) :
  afterRender c t st a = Stop st' -> isWithinTolerance a t (tolerance c) = true.
Proof.
  unfold afterRender. destruct (isWithinTolerance a t (tolerance c)); [reflexivity |].
  destruct (adjustAfterMiss _ _ _ _ _ _) as [[? ?] ?]. discriminate.
Qed.

Lemma afterRender_next_facts (c : Config) (t : R) (st st' : LoopState) (a : R) :
  afterRender c t st a = Next st' ->
  isWithinTolerance a t (tolerance c) = false /\ iteration st' = S (iteration st) /\
  buffer st' = buffer st /\ actualSize st' = actualSize st.
Proof.
  unfold afterRender. destruct (isWithinTolerance a t (tolerance c)); [discriminate |].
  destruct (adjustAfterMiss _ _ _ _ _ _) as [[? ?] ?]. intros E. injection E as <-.
  simpl. auto.
Qed.

Lemma loop_count (J : option (RenderArgs -> Buffer)) (c : Config) (t : R) (fuel : nat) :
  forall st log st_f log',
  toleranceHit c t (actualSize st) = false ->
  loop J c t fuel st log = (inr st_f, log') ->
  exists calls, log' = log ++ calls /\ (List.length calls <= fuel)%nat /\
    ((toleranceHit c t (actualSize st_f) = true /\ calls <> [] /\
      S (iteration st_f) = (iteration st + List.length calls)%nat) \/
     (toleranceHit c t (actualSize st_f) = false /\ List.length calls = fuel /\
      iteration st_f = (iteration st + List.length calls)%nat)).
Proof.
  induction fuel as [| fuel IH]; intros st log st_f log' Hst H.
  - simpl in H. injection H as <- <-. exists []. rewrite app_nil_r.
    split; [reflexivity | split; [simpl; lia |]]. right. simpl. split; [exact Hst | lia].
  - cbn [loop] in H. unfold bind in H.
    destruct (iterationBody_cases J c t st log) as [w [h [q [_ Hcases]]]].
    destruct Hcases as [[e He] | [encode [_ He]]]; rewrite He in H; [discriminate |].
    destruct (afterRender c t _ _) as [st' | st'] eqn:Ha.
    + injection H as <- <-. pose proof (afterRender_stop_hit _ _ _ _ _ Ha) as Hhit.
      apply afterRender_stop_state in Ha. subst st'.
      exists [renderArgs c w h q].
      split; [reflexivity | split; [simpl; lia |]].
      left. simpl. split; [exact Hhit | split; [discriminate | lia]].
    + destruct (afterRender_next_facts _ _ _ _ _ Ha) as [Hmiss [Hi [_ Ha']]].
      assert (Hst' : toleranceHit c t (actualSize st') = false)
        by (rewrite Ha'; exact Hmiss).
      destruct (IH st' _ st_f log' Hst' H) as [calls [El [Hlen Hcase]]].
      exists (renderArgs c w h q :: calls).
      split; [rewrite El, <- app_assoc; reflexivity |].
      split; [simpl; lia |].
      rewrite Hi in Hcase. simpl in Hcase |- *.
      destruct Hcase as [[H1 [H2 H3]] | [H1 [H2 H3]]];
        [left; split; [exact H1 | split; [discriminate | lia]] | right; split; [exact H1 | lia]].
Qed.

(** X: a successful run renders at most [maxIterations] times.  If the
    returned size is within the tolerance, [iterations] is the number of
    renders; otherwise the run used all [maxIterations] renders and
    [iterations] is one more than that. *)
Theorem iterations_count (J : option (RenderArgs -> Buffer)) (c : Config)
  (log : list RenderArgs) :
  match generateImageWithTargetSize J c log with
  | (inr out, log') =>
      exists calls, log' = log ++ calls /\ (List.length calls <= maxIterations c)%nat /\
      ((toleranceHit c (mbToBytes (targetSizeMB c)) (o_actualSizeBytes out) = true /\
        o_iterations out = List.length calls /\ calls <> []) \/
       (toleranceHit c (mbToBytes (targetSizeMB c)) (o_actualSizeBytes out) = false /\
        List.length calls = maxIterations c /\ o_iterations out = S (List.length calls)))
  | (inl _, _) => True
  end.
Proof.
  unfold generateImageWithTargetSize.
  destruct (Rleb (targetSizeMB c) 0); [exact I |].
  destruct (isFormatSupported (format c)); simpl; [| exact I].
  destruct (estimateInitialDimensions _ _) as [[w0 |] [h0 |]]; try exact I.
  unfold bind.
  destruct (loop J c _ _ _ log) as [[e | st] log'] eqn:Hl; [exact I |].
  simpl.
  destruct (loop_count J c _ _ (initialState w0 h0) log st log' eq_refl Hl)
    as [calls [El [Hlen Hcase]]].
  exists calls. split; [exact El | split; [exact Hlen |]].
  simpl in Hcase. destruct Hcase as [[H1 [H2 H3]] | [H1 [H2 H3]]];
    [left; split; [exact H1 | split; [lia | exact H2]] | right; split; [exact H1 | lia]].
Qed.

(** X: when the returned size is within the tolerance, the outcome is
    the last render: its buffer and size, and the width, height and
    (for jpg/jpeg) quality that render was called with. *)
Theorem success_returns_last_render (J : option (RenderArgs -> Buffer)) (c : Config)
  (log : list RenderArgs) :
  match generateImageWithTargetSize J c log with
  | (inr out, log') =>
      toleranceHit c (mbToBytes (targetSizeMB c)) (o_actualSizeBytes out) = true ->
      exists prefix r encode,
        J = Some encode /\ log' = prefix ++ [r] /\
        o_buffer out = Some (encode r) /\
        o_actualSizeBytes out = Some (getImageSize (encode r)) /\
        o_width out = r_width r /\ o_height out = r_height r /\
        o_quality out = (if is_jpeg (format c) then Some (r_quality r) else None)
  | (inl _, _) => True
  end.
Proof.
  unfold generateImageWithTargetSize.
  destruct (Rleb (targetSizeMB c) 0); [exact I |].
  destruct (isFormatSupported (format c)); simpl; [| exact I].
  destruct (estimateInitialDimensions _ _) as [[w0 |] [h0 |]]; try exact I.
  unfold bind.
  destruct (loop J c _ _ _ log) as [[e | st] log'] eqn:Hl; [exact I |].
  simpl. intros Hhit.
  destruct (loop_last _ _ _ _ _ _ _ _ Hl)
    as [[_ Es] | [prefix [encode [st0 [w [h [q [EJ [El [Hs | Hs]]]]]]]]]].
  - subst st. discriminate.
  - apply afterRender_stop_state in Hs. subst st.
    exists prefix, (renderArgs c w h q), encode. simpl. auto 8.
  - destruct (afterRender_next_facts _ _ _ _ _ Hs) as [Hmiss [_ [_ Ha]]].
    rewrite Ha in Hhit. simpl in Hhit. rewrite Hmiss in Hhit. discriminate.
Qed.

(** ** The text colour *)

Definition withTextColor (c : Config) (tc : string) : Config :=
  {| targetSizeMB := targetSizeMB c; format := format c;
     backgroundColor := backgroundColor c; textColor := tc;
     maxIterations := maxIterations c; tolerance := tolerance c |}.
Definition setTextColor (r : RenderArgs) (tc : string) : RenderArgs :=
  {| r_width := r_width r; r_height := r_height r; r_format := r_format r;
     r_sizeMB := r_sizeMB r; r_backgroundColor := r_backgroundColor r;
     r_textColor := tc; r_quality := r_quality r |}.
Lemma generateImageWithText_log (J : option (RenderArgs -> Buffer)) (r : RenderArgs)
  (log : list RenderArgs) :
  generateImageWithText J r log = (fst (generateImageWithText J r []), log ++ [r]).
Proof.
  unfold generateImageWithText, bind, record_call, validateJimpAvailability,
    validateDimensions, ret, throw.
  destruct J; simpl; [| reflexivity].
  repeat match goal with |- context [if ?b then _ else _] => destruct b end; reflexivity.
Qed.

Lemma generateImageWithText_textColor (e : RenderArgs -> Buffer) (r : RenderArgs) (tc : string) :
  e (setTextColor r tc) = e r ->
  fst (generateImageWithText (Some e) (setTextColor r tc) []) =
  fst (generateImageWithText (Some e) r []).
Proof.
  intros H.
  unfold generateImageWithText, bind, record_call, validateJimpAvailability,
    validateDimensions, ret, throw.
  cbv beta iota. rewrite H. cbn [r_width r_height r_format setTextColor].
  repeat match goal with |- context [if ?b then _ else _] => destruct b end; reflexivity.
Qed.

Lemma iterationBody_textColor (J : option (RenderArgs -> Buffer)) (c : Config) (tc : string)
  (t : R) (st : LoopState) :
  (forall e r, J = Some e -> e (setTextColor r tc) = e r) ->
  forall log1 log2, exists res r,
    iterationBody J c t st log1 = (res, log1 ++ [r]) /\
    iterationBody J (withTextColor c tc) t st log2 = (res, log2 ++ [setTextColor r tc]).
Proof.
  intros Hinv log1 log2. unfold iterationBody. cbn [format withTextColor].
  destruct (clampToMaxDimension (format c) t (width st) (height st) (quality st)) as [[w h] q].
  change (renderArgs (withTextColor c tc) w h q) with (setTextColor (renderArgs c w h q) tc).
  unfold bind.
  rewrite (generateImageWithText_log J (renderArgs c w h q) log1).
  rewrite (generateImageWithText_log J (setTextColor (renderArgs c w h q) tc) log2).
  assert (E : fst (generateImageWithText J (setTextColor (renderArgs c w h q) tc) []) =
              fst (generateImageWithText J (renderArgs c w h q) [])).
  { destruct J as [e |]; [| reflexivity].
    apply generateImageWithText_textColor, (Hinv e _ eq_refl). }
  rewrite E.
  destruct (fst (generateImageWithText J (renderArgs c w h q) [])) as [err | buf].
  - exists (inl err), (renderArgs c w h q). split; reflexivity.
  - exists (inr (afterRender c t (renderedState st w h q buf) (getImageSize buf))),
      (renderArgs c w h q).
    split; reflexivity.
Qed.

Lemma loop_textColor (J : option (RenderArgs -> Buffer)) (c : Config) (tc : string)
  (t : R) (fuel : nat) :
  (forall e r, J = Some e -> e (setTextColor r tc) = e r) ->
  forall st log1 log2, exists res calls,
    loop J c t fuel st log1 = (res, log1 ++ calls) /\
    loop J (withTextColor c tc) t fuel st log2 =
    (res, log2 ++ List.map (fun r => setTextColor r tc) calls).
Proof.
  intros Hinv. induction fuel as [| fuel IH]; intros st log1 log2.
  - exists (inr st), []. simpl. rewrite !app_nil_r. split; reflexivity.
  - cbn [loop]. unfold bind.
    destruct (iterationBody_textColor J c tc t st Hinv log1 log2) as [res [r [E1 E2]]].
    rewrite E1, E2.
    destruct res as [err | [st' | st']].
    + exists (inl err), [r]. split; reflexivity.
    + exists (inr st'), [r]. split; reflexivity.
    + destruct (IH st' (log1 ++ [r]) (log2 ++ [setTextColor r tc])) as [res [calls [F1 F2]]].
      exists res, (r :: calls). rewrite F1, F2, <- !app_assoc. split; reflexivity.
Qed.

(** X: the text colour is never drawn: with Jimp loaded, changing
    [textColor] changes neither the result (outcome or error) of
    [generateImageWithTargetSize] nor the render calls, apart from the
    [textColor] they carry. *)
Theorem textColor_never_drawn (jimp : JimpModule) (nts : R -> string) (c : Config)
  (tc : string) :
  fst (generateImageWithTargetSize (Some (renderWithJimp jimp nts)) (withTextColor c tc) []) =
  fst (generateImageWithTargetSize (Some (renderWithJimp jimp nts)) c []) /\
  snd (generateImageWithTargetSize (Some (renderWithJimp jimp nts)) (withTextColor c tc) []) =
  List.map (fun r => setTextColor r tc)
    (snd (generateImageWithTargetSize (Some (renderWithJimp jimp nts)) c [])).
Proof.
  assert (Hinv : forall e r, Some (renderWithJimp jimp nts) = Some e ->
                   e (setTextColor r tc) = e r).
  { intros e r E. injection E as <-. reflexivity. }
  unfold generateImageWithTargetSize.
  change (targetSizeMB (withTextColor c tc)) with (targetSizeMB c).
  change (format (withTextColor c tc)) with (format c).
  change (maxIterations (withTextColor c tc)) with (maxIterations c).
  destruct (Rleb (targetSizeMB c) 0); [split; reflexivity |].
  destruct (isFormatSupported (format c)); simpl; [| split; reflexivity].
  destruct (estimateInitialDimensions _ _) as [[w0 |] [h0 |]]; try (split; reflexivity).
  unfold bind.
  destruct (loop_textColor _ c tc (mbToBytes (targetSizeMB c)) (maxIterations c) Hinv
              (initialState w0 h0) [] []) as [res [calls [E1 E2]]].
  rewrite E1, E2. destruct res; split; reflexivity.
Qed.

(** ** Adjustment direction and the estimator *)

(** X: for integer dimensions of at least 50, one adjustment step never
    shrinks the image when it was too small, never grows it when it was too
    large, and keeps it when the size matched exactly. *)
Theorem adjustDimensions_direction (a t : R) (zw zh : Z) :
  0 < a -> 0 < t -> 50 <= IZR zw -> 50 <= IZR zh ->
  let '(w', h') := adjustDimensions a t (IZR zw) (IZR zh) in
  (a < t -> IZR zw <= w' /\ IZR zh <= h') /\
  (t < a -> w' <= IZR zw /\ h' <= IZR zh) /\
  (a = t -> w' = IZR zw /\ h' = IZR zh).
Proof.
  intros Ha Ht Hw Hh. unfold adjustDimensions. cbv zeta.
  set (s := sqrt (t / a)).
  assert (Hs0 : 0 <= s) by apply sqrt_pos.
  assert (Grow : forall z : Z, 50 <= IZR z -> 1 <= s -> IZR z <= Rmax (Math_round (IZR z * s)) 50).
  { intros z Hz H1. rewrite <- (Math_round_IZR z) at 1.
    eapply Rle_trans; [apply Math_round_mono | apply Rmax_l]. nra. }
  assert (Shrink : forall z : Z, 50 <= IZR z -> s <= 1 -> Rmax (Math_round (IZR z * s)) 50 <= IZR z).
  { intros z Hz H1. apply Rmax_lub; [| exact Hz].
    rewrite <- (Math_round_IZR z) at 2. apply Math_round_mono. nra. }
  split; [| split].
  - intros Hlt.
    assert (H1 : 1 < t / a).
    { apply (Rmult_lt_reg_r a); [exact Ha |].
      unfold Rdiv. rewrite Rmult_assoc, Rinv_l by lra. lra. }
    assert (Hs : 1 <= s).
    { rewrite <- sqrt_1. apply sqrt_le_1_alt. lra. }
    split; apply Grow; assumption.
  - intros Hgt.
    assert (H1 : t / a < 1).
    { apply (Rmult_lt_reg_r a); [exact Ha |].
      unfold Rdiv. rewrite Rmult_assoc, Rinv_l by lra. lra. }
    assert (Hs : s <= 1).
    { rewrite <- sqrt_1. apply sqrt_le_1_alt. lra. }
    split; apply Shrink; assumption.
  - intros Heq. subst t.
    assert (Hs : s = 1) by (unfold s; rewrite Rdiv_diag by lra; apply sqrt_1).
    rewrite Hs, !Rmult_1_r, !Math_round_IZR.
    split; apply Rmax_left; lra.
Qed.

Lemma adjustDimensions_direction_witness :
  (0 < 1 /\ 0 < 2 /\ 50 <= IZR 100 /\ 50 <= IZR 56) /\
  let '(w', h') := adjustDimensions 1 2 (IZR 100) (IZR 56) in
  (1 < 2 -> IZR 100 <= w' /\ IZR 56 <= h') /\
  (2 < 1 -> w' <= IZR 100 /\ h' <= IZR 56) /\
  (1 = 2 -> w' = IZR 100 /\ h' = IZR 56).
Proof.
  split; [repeat split; lra |].
  apply (adjustDimensions_direction 1 2 100 56); lra.
Defined.

Lemma estimate_dims (t : R) (fmt : string) :
  is_Object_prototype_key (toLowerCase fmt) = false -> 0 < t ->
  estimateInitialDimensions t fmt =
  (Some (fst (dims_of_width (sqrt (t / spec_factor fmt * aspectRatio)))),
   Some (snd (dims_of_width (sqrt (t / spec_factor fmt * aspectRatio))))).
Proof.
  intros Hp Ht.
  rewrite (estimate_numeric_factor t fmt (spec_factor fmt) (factor_lookup_plain fmt Hp)).
  rewrite estimate_with_factor_dims by (apply spec_factor_pos || exact Ht).
  reflexivity.
Qed.

(** X: for every format that is not an [Object.prototype] key, a larger
    target never gives a smaller estimated width or height. *)
Theorem estimate_monotone_in_target (fmt : string) (t1 t2 : R) :
  is_Object_prototype_key (toLowerCase fmt) = false -> 0 < t1 -> t1 <= t2 ->
  exists w1 h1 w2 h2,
    estimateInitialDimensions t1 fmt = (Some w1, Some h1) /\
    estimateInitialDimensions t2 fmt = (Some w2, Some h2) /\
    w1 <= w2 /\ h1 <= h2.
Proof.
  intros Hp Ht1 H12.
  rewrite (estimate_dims t1 fmt Hp Ht1), (estimate_dims t2 fmt Hp ltac:(lra)).
  pose proof (spec_factor_pos fmt) as Hk.
  assert (Hle : sqrt (t1 / spec_factor fmt * aspectRatio) <=
                sqrt (t2 / spec_factor fmt * aspectRatio)).
  { apply sqrt_le_1_alt. apply Rmult_le_compat_r; [unfold aspectRatio; lra |].
    unfold Rdiv. apply Rmult_le_compat_r; [left; apply Rinv_0_lt_compat; exact Hk | exact H12]. }
  destruct (dims_of_width_mono _ _ Hle) as [Hw Hh].
  do 4 eexists. split; [reflexivity | split; [reflexivity | split; eassumption]].
Qed.

Lemma estimate_monotone_in_target_witness :
  (is_Object_prototype_key (toLowerCase "png") = false /\ 0 < 1000 /\ 1000 <= 2000) /\
  exists w1 h1 w2 h2,
    estimateInitialDimensions 1000 "png" = (Some w1, Some h1) /\
    estimateInitialDimensions 2000 "png" = (Some w2, Some h2) /\
    w1 <= w2 /\ h1 <= h2.
Proof.
  split; [split; [reflexivity | lra] |].
  apply (estimate_monotone_in_target "png" 1000 2000); [reflexivity | lra | lra].
Defined.

(** X: for every positive target and every format that is not an
    [Object.prototype] key (unsupported ones use the factor 1.5), the
    estimate is a pair of integers with 100 <= width <= 32767,
    56 <= height <= 32767 and height <= width. *)
Theorem estimate_integer_landscape (fmt : string) (t : R) :
  is_Object_prototype_key (toLowerCase fmt) = false -> 0 < t ->
  exists w h,
    estimateInitialDimensions t fmt = (Some w, Some h) /\
    is_int w /\ is_int h /\ 100 <= w <= maxDimension /\ 56 <= h <= maxDimension /\
    h <= w.
Proof.
  intros Hp Ht.
  pose proof (estimate_numeric_factor t fmt (spec_factor fmt) (factor_lookup_plain fmt Hp)) as E.
  pose proof (estimate_with_factor_bounds _ _ (spec_factor_pos fmt) Ht) as Hb.
  rewrite (estimate_with_factor_dims _ _ (spec_factor_pos fmt) Ht) in E, Hb.
  rewrite E. set (x := sqrt (t / spec_factor fmt * aspectRatio)) in *.
  assert (Hx : 0 <= x) by apply sqrt_pos.
  do 2 eexists. split; [reflexivity |].
  unfold dims_of_width in *; simpl in *.
  split; [eauto with ints | split; [eauto with ints | split; [lra | split; [lra |]]]].
  assert (Hm : 0 <= Rmin x maxDimension)
    by (unfold Rmin, maxDimension; destruct (Rle_dec x 32767); lra).
  assert (Hr : Math_round (Rmin x maxDimension / aspectRatio) <= Math_round (Rmin x maxDimension))
    by (apply Math_round_mono; unfold aspectRatio; lra).
  unfold Rmax. destruct (Rle_dec (Math_round (Rmin x maxDimension / aspectRatio)) 56);
    destruct (Rle_dec (Math_round (Rmin x maxDimension)) 100); lra.
Qed.

Lemma estimate_integer_landscape_witness :
  (is_Object_prototype_key (toLowerCase "gif") = false /\ 0 < 1048576) /\
  exists w h,
    estimateInitialDimensions 1048576 "gif" = (Some w, Some h) /\
    is_int w /\ is_int h /\ 100 <= w <= maxDimension /\ 56 <= h <= maxDimension /\
    h <= w.
Proof.
  split; [split; [reflexivity | lra] |].
  apply (estimate_integer_landscape "gif" 1048576); [reflexivity | lra].
Defined.
